(** * url-shortener: the server actions of [src/app/actions.ts]

    A shallow embedding of the four server actions ([shortenUrl],
    [lookupUrl], [extendUrl], [getUrls]) and of the Redis commands they
    issue, followed by the properties of the mapping life cycle.

    Conventions of the embedding.
    - Time is the number of milliseconds since the epoch ([Date.getTime()]),
      an integer.  A record's [createdAt] and [expiresAt] are written with
      [toISOString()] and read back with [new Date(...)], which is the
      identity on such timestamps, so both fields are kept as integers.
    - One call of an action runs at one instant [now]: every clock read of
      the call ([new Date()], [Date.now()], and the clock Redis uses for the
      time to live of a key) returns it.
    - [JSON.stringify] followed by [JSON.parse] is the identity on a
      [UrlMapping], so a string key of Redis holds the record itself.
    - [revalidatePath] acts on the page cache of the framework, not on the
      store, and is left out. *)

From Stdlib Require Import ZArith Lia String Ascii List Sorted.
From stdpp Require Import base option list gmap sets strings.

Local Open Scope Z_scope.

(** ** Data model *)

(** [interface UrlMapping] *)
Record UrlMapping : Type := mkUrlMapping {
  shortUrl : string;
  longUrl : string;
  createdAt : Z;
  expiresAt : Z;
  clientId : string
}.

(** The four messages the actions throw with [new Error(...)]:
    "Client ID required", "Invalid URL", "URL not found or expired" and
    "Unauthorized access to URL". *)
Inductive error : Type :=
  | ClientIdRequired
  | InvalidUrl
  | NotFoundOrExpired
  | UnauthorizedAccess.

(** The taxonomy of the specification. *)
Inductive error_kind : Type := InvalidInput | NotFound | Unauthorized.

Definition kind_of (e : error) : error_kind :=
  match e with
  | ClientIdRequired | InvalidUrl => InvalidInput
  | NotFoundOrExpired => NotFound
  | UnauthorizedAccess => Unauthorized
  end.

(** What a call produces: the value it returns or the error it throws. *)
Inductive result (A : Type) : Type :=
  | Returns (a : A)
  | Throws (e : error).
Arguments Returns {A} a.
Arguments Throws {A} e.

(** A JavaScript number as far as [getUrls] needs it: an integer, or one of
    the two values a division by zero gives. *)
Inductive number : Type :=
  | Num (z : Z)
  | Infinity
  | NaN.

(** The object [getUrls] returns. *)
Record UrlPage : Type := mkUrlPage {
  urls : list UrlMapping;
  totalPages : number
}.

(** ** The store

    Redis keeps every key in one key space.  The actions use two key
    templates, one for string values and one for sets, which never
    coincide (lemma [url_key_user_key]); the store is therefore a pair of
    maps, one per type of value.  A string value carries the instant at
    which its time to live runs out; Redis treats the key as expired, and
    no longer shows it, once the clock is past that instant. *)
Record redis : Type := mkRedis {
  strings : gmap string (UrlMapping * Z);
  sets : gmap string (gset string)
}.

Definition redis_empty : redis := mkRedis ∅ ∅.

(** [`url:${shortCode}`] *)
Definition url_key (shortCode : string) : string := "url:" +:+ shortCode.

(** [`user:${clientId}:urls`] *)
Definition user_key (clientId : string) : string :=
  "user:" +:+ clientId +:+ ":urls".

Module Redis.

(** GET key *)
Definition get (key : string) (now : Z) (db : redis) : option UrlMapping :=
  match strings db !! key with
  | Some (value, deadline) => if now <=? deadline then Some value else None
  | None => None
  end.

(** EXISTS key (non-zero when the key is there) *)
Definition exists_ (key : string) (now : Z) (db : redis) : bool :=
  match get key now db with
  | Some _ => true
  | None => false
  end.

(** SET key value EX seconds *)
Definition set_ex (key : string) (value : UrlMapping) (seconds : Z)
    (now : Z) (db : redis) : redis :=
  mkRedis (<[key := (value, now + seconds * 1000)]> (strings db)) (sets db).

(** DEL key *)
Definition del (key : string) (db : redis) : redis :=
  mkRedis (delete key (strings db)) (sets db).

(** The members of the set at [key]; a missing key is the empty set. *)
Definition members (key : string) (db : redis) : gset string :=
  default ∅ (sets db !! key).

(** SADD key member *)
Definition sadd (key : string) (member : string) (db : redis) : redis :=
  mkRedis (strings db) (<[key := {[member]} ∪ members key db]> (sets db)).

(** SREM key member; Redis drops a set that becomes empty. *)
Definition srem (key : string) (member : string) (db : redis) : redis :=
  let rest := members key db ∖ {[member]} in
  mkRedis (strings db)
    (if decide (rest = ∅) then delete key (sets db)
     else <[key := rest]> (sets db)).

(** SMEMBERS key: the members in the order Redis hands them out. *)
Definition smembers (key : string) (db : redis) : list string :=
  elements (members key db).

End Redis.

(** ** JavaScript helpers *)

(** A string used as a condition is true unless it is empty. *)
Definition truthy (s : string) : bool := negb (String.eqb s "").

(** [Math.ceil(n / d)] for integers [n] and [d], [d] not zero. *)
Definition ceil_div (n d : Z) : Z := - ((- n) / d).

(** [Math.ceil(n / d)] for an integer [n >= 0] (a length) and an integer
    [d]: [0 / 0] is NaN, [n / 0] is Infinity for [n > 0]. *)
Definition ceil_quot (n d : Z) : number :=
  if d =? 0 then (if n =? 0 then NaN else Infinity) else Num (ceil_div n d).

(** [Math.max(1, x)] *)
Definition max_one (x : number) : number :=
  match x with
  | Num z => Num (Z.max 1 z)
  | Infinity => Infinity
  | NaN => NaN
  end.

(** [Array.prototype.slice(start, end)] on integer arguments: a negative
    index counts from the end of the array, and both ends are clamped to
    the array. *)
Definition relative_index (len k : Z) : Z :=
  if k <? 0 then Z.max (len + k) 0 else Z.min k len.

Definition slice {A : Type} (l : list A) (start end_ : Z) : list A :=
  let len := Z.of_nat (length l) in
  let k := relative_index len start in
  let final := relative_index len end_ in
  take (Z.to_nat (final - k)) (drop (Z.to_nat k) l).

(** [mappings.sort((a, b) => new Date(b.createdAt).getTime() -
    new Date(a.createdAt).getTime())]: newest first; the sort of an array
    is stable, so records created at the same instant keep their order. *)
Fixpoint insert_newest (a : UrlMapping) (l : list UrlMapping)
    : list UrlMapping :=
  match l with
  | [] => [a]
  | b :: l' =>
      if createdAt a <? createdAt b then b :: insert_newest a l'
      else a :: l
  end.

Definition sort_newest_first (l : list UrlMapping) : list UrlMapping :=
  foldr insert_newest [] l.

(** ** Code generator *)

Definition chars : string :=
  "ABCDEFGHIJKLMNOPQRSTUVWXYZabcdefghijklmnopqrstuvwxyz0123456789".

(** [s.charAt(i)]: the empty string when [i] is out of range. *)
Definition charAt (s : string) (i : nat) : string :=
  match String.get i s with
  | Some c => String c EmptyString
  | None => EmptyString
  end.

(** The source of randomness of one call is the sequence [rand] of the
    values [Math.random()] takes; [Math.floor(Math.random() * chars.length)]
    is a draw between 0 and [chars.length - 1], so the draw number [i] is
    [rand i mod chars.length]. *)
Definition draw (rand : nat -> nat) (i : nat) : nat :=
  (rand i mod String.length chars)%nat.

(** The [for] loop of [generateShortCode]: [n] more characters are
    appended to [result], reading the draws from number [pos] on. *)
Fixpoint generate_loop (n : nat) (rand : nat -> nat) (pos : nat)
    (result : string) : string :=
  match n with
  | O => result
  | S n' =>
      generate_loop n' rand (S pos) (result +:+ charAt chars (draw rand pos))
  end.

(** [generateShortCode()], with the number of the next unused draw. *)
Definition generateShortCode (rand : nat -> nat) (pos : nat) : string * nat :=
  (generate_loop 5 rand pos EmptyString, (pos + 5)%nat).

(** The [i]-th code a call generates. *)
Definition candidate (rand : nat -> nat) (i : nat) : string :=
  fst (generateShortCode rand (5 * i)).

(** ** The actions *)

Definition lifetime : Z := 48 * 60 * 60 * 1000.

(** The [while (await redis.exists(...))] loop of [shortenUrl].  The loop
    has no bound of its own; [fuel] is the number of times the model lets
    the body run, and [None] says that the loop is still running when the
    fuel is spent. *)
Fixpoint retry (fuel : nat) (rand : nat -> nat) (pos : nat) (now : Z)
    (db : redis) (shortCode : string) : option string :=
  if Redis.exists_ (url_key shortCode) now db then
    match fuel with
    | O => None
    | S fuel' =>
        let '(shortCode', pos') := generateShortCode rand pos in
        retry fuel' rand pos' now db shortCode'
    end
  else Some shortCode.

Section Actions.

(** [new URL(longUrl)] does not throw.  The URL parser belongs to the
    platform, so validity is a parameter of the development. *)
Variable valid_url : string -> bool.

(** [shortenUrl(longUrl, clientId)]; it returns [{ shortUrl }]. *)
Definition shortenUrl (fuel : nat) (rand : nat -> nat) (now : Z)
    (longUrl_ clientId_ : string) (db : redis)
    : option (result string * redis) :=
  if negb (truthy clientId_) then Some (Throws ClientIdRequired, db)
  else if negb (valid_url longUrl_) then Some (Throws InvalidUrl, db)
  else
    let '(first, pos) := generateShortCode rand 0 in
    match retry fuel rand pos now db first with
    | None => None
    | Some shortCode =>
        let createdAt_ := now in
        let expiresAt_ := createdAt_ + lifetime in
        let mapping :=
          mkUrlMapping shortCode longUrl_ createdAt_ expiresAt_ clientId_ in
        let db1 :=
          Redis.set_ex (url_key shortCode) mapping
            (ceil_div (expiresAt_ - now) 1000) now db in
        let db2 := Redis.sadd (user_key clientId_) shortCode db1 in
        Some (Returns shortCode, db2)
    end.

End Actions.

(** [clientId && mapping.clientId !== clientId], the ownership check of
    [lookupUrl]: it is enforced only when a client id is provided. *)
Definition denied (clientId_ : option string) (mapping : UrlMapping) : bool :=
  match clientId_ with
  | Some c => truthy c && negb (String.eqb (clientId mapping) c)
  | None => false
  end.

(** [lookupUrl(shortCode, clientId?)] *)
Definition lookupUrl (now : Z) (shortCode : string)
    (clientId_ : option string) (db : redis) : result UrlMapping * redis :=
  match Redis.get (url_key shortCode) now db with
  | None => (Throws NotFoundOrExpired, db)
  | Some mapping =>
      if denied clientId_ mapping then (Throws UnauthorizedAccess, db)
      else if expiresAt mapping <=? now then
        let db1 := Redis.del (url_key shortCode) db in
        let db2 :=
          match clientId_ with
          | Some c =>
              if truthy c then Redis.srem (user_key c) shortCode db1 else db1
          | None => db1
          end in
        (Throws NotFoundOrExpired, db2)
      else (Returns mapping, db)
  end.

(** [extendUrl(shortCode, clientId)]; it returns [{ success: true }]. *)
Definition extendUrl (now : Z) (shortCode clientId_ : string) (db : redis)
    : result bool * redis :=
  if negb (truthy clientId_) then (Throws ClientIdRequired, db)
  else
    match Redis.get (url_key shortCode) now db with
    | None => (Throws NotFoundOrExpired, db)
    | Some mapping =>
        if negb (String.eqb (clientId mapping) clientId_)
        then (Throws UnauthorizedAccess, db)
        else if expiresAt mapping <=? now then
          (Throws NotFoundOrExpired,
           Redis.srem (user_key clientId_) shortCode
             (Redis.del (url_key shortCode) db))
        else
          let newExpiresAt := expiresAt mapping + lifetime in
          let mapping' :=
            mkUrlMapping (shortUrl mapping) (longUrl mapping)
              (createdAt mapping) newExpiresAt (clientId mapping) in
          (Returns true,
           Redis.set_ex (url_key shortCode) mapping'
             (ceil_div (newExpiresAt - now) 1000) now db)
    end.

(** The body of the [for (const shortCode of shortCodes)] loop of
    [getUrls], on the array [mappings] and the store. *)
Definition getUrls_step (now : Z) (clientId_ : string)
    (acc : list UrlMapping * redis) (shortCode : string)
    : list UrlMapping * redis :=
  let '(mappings, db) := acc in
  match Redis.get (url_key shortCode) now db with
  | Some mapping =>
      if (now <? expiresAt mapping)
         && String.eqb (clientId mapping) clientId_
      then (mappings ++ [mapping], db)
      else
        (mappings,
         Redis.srem (user_key clientId_) shortCode
           (Redis.del (url_key shortCode) db))
  | None => (mappings, db)
  end.

Definition getUrls_loop (now : Z) (clientId_ : string)
    (shortCodes : list string) (db : redis) : list UrlMapping * redis :=
  foldl (getUrls_step now clientId_) ([], db) shortCodes.

(** [getUrls(page, pageSize, clientId)], on integers [page] and
    [pageSize]; a caller that leaves them undefined gets the defaults 1
    and 10, which is the call with these two values. *)
Definition getUrls (now : Z) (page pageSize : Z) (clientId_ : string)
    (db : redis) : result UrlPage * redis :=
  if negb (truthy clientId_) then (Throws ClientIdRequired, db)
  else
    let shortCodes := Redis.smembers (user_key clientId_) db in
    let '(mappings, db') := getUrls_loop now clientId_ shortCodes db in
    let sorted := sort_newest_first mappings in
    let totalPages_ := ceil_quot (Z.of_nat (length sorted)) pageSize in
    let startIndex := (page - 1) * pageSize in
    let paginatedUrls := slice sorted startIndex (startIndex + pageSize) in
    (Returns (mkUrlPage paginatedUrls (max_one totalPages_)), db').

(** ** Vocabulary of the properties *)

(** At instant [now] the store shows record [m] under the key of code
    [c]. *)
Definition stored (now : Z) (c : string) (m : UrlMapping) (db : redis)
    : Prop :=
  Redis.get (url_key c) now db = Some m.

(** Code [c] is in the index set of owner [o]. *)
Definition indexed (o c : string) (db : redis) : Prop :=
  c ∈ Redis.members (user_key o) db.

(** The test of the loop of [getUrls] on the record fetched for a code. *)
Definition live_owned (now : Z) (o : string) (m : UrlMapping) : bool :=
  (now <? expiresAt m) && String.eqb (clientId m) o.

(** The record the loop of [getUrls] collects for code [c], if any. *)
Definition kept (now : Z) (o : string) (db : redis) (c : string)
    : option UrlMapping :=
  match Redis.get (url_key c) now db with
  | Some m => if live_owned now o m then Some m else None
  | None => None
  end.

(** The loop of [getUrls] cleans code [c] up: a record is there and it is
    expired or belongs to somebody else. *)
Definition stale (now : Z) (o : string) (db : redis) (c : string) : bool :=
  match Redis.get (url_key c) now db with
  | Some m => negb (live_owned now o m)
  | None => false
  end.

(** The two commands of a clean-up: [DEL] of the record, [SREM] from the
    index of [o]. *)
Definition cleanup (o : string) (db : redis) (c : string) : redis :=
  Redis.srem (user_key o) c (Redis.del (url_key c) db).

(** Every record sits under the key of its own short code. *)
Definition keyed (db : redis) : Prop :=
  ∀ k m d, strings db !! k = Some (m, d) → k = url_key (shortUrl m).

(** The stores the actions produce from the empty store, whatever the
    arguments, the instants and the random draws of the calls. *)
Inductive reachable (valid_url : string -> bool) : redis -> Prop :=
  | reach_empty : reachable valid_url redis_empty
  | reach_shorten fuel rand now u o db r db' :
      reachable valid_url db ->
      shortenUrl valid_url fuel rand now u o db = Some (r, db') ->
      reachable valid_url db'
  | reach_lookup now c cid db :
      reachable valid_url db ->
      reachable valid_url (snd (lookupUrl now c cid db))
  | reach_extend now c o db :
      reachable valid_url db ->
      reachable valid_url (snd (extendUrl now c o db))
  | reach_list now page pageSize o db :
      reachable valid_url db ->
      reachable valid_url (snd (getUrls now page pageSize o db)).

(** The [i]-th code of a call is taken: the existence check of the loop
    of [shortenUrl] finds its key. *)
Definition collides (rand : nat -> nat) (now : Z) (db : redis) (i : nat)
    : Prop :=
  Redis.exists_ (url_key (candidate rand i)) now db = true.

(** The record [shortenUrl] builds at instant [now] for code [c]. *)
Definition new_mapping (now : Z) (u o c : string) : UrlMapping :=
  mkUrlMapping c u now (now + lifetime) o.

(** The store after [shortenUrl] has written that record and the index
    entry. *)
Definition persist (now : Z) (u o c : string) (db : redis) : redis :=
  Redis.sadd (user_key o) c
    (Redis.set_ex (url_key c) (new_mapping now u o c)
       (ceil_div (now + lifetime - now) 1000) now db).

(** The record [extendUrl] writes back in place of [m]. *)
Definition renewed (m : UrlMapping) : UrlMapping :=
  mkUrlMapping (shortUrl m) (longUrl m) (createdAt m)
    (expiresAt m + lifetime) (clientId m).

(** The array [mappings] of [getUrls] after the sort: the records the
    loop collected for owner [o], newest first. *)
Definition collected (now : Z) (o : string) (db : redis) : list UrlMapping :=
  sort_newest_first
    (fst (getUrls_loop now o (Redis.smembers (user_key o) db) db)).

(** ** Sample data for the closed examples *)

Module Sample.

(** A URL check for the examples: it refuses the one string the
    specification names as malformed. *)
Definition valid_url (u : string) : bool :=
  negb (String.eqb u "not-a-url").

(** Every draw is 0: every generated code is "AAAAA". *)
Definition rand_zero (i : nat) : nat := 0%nat.

(** The first eleven codes are "AAAAA", the later ones "BBBBB". *)
Definition rand_late (i : nat) : nat := if (i <? 55)%nat then 0%nat else 1%nat.

Definition record_a : UrlMapping :=
  mkUrlMapping "AAAAA" "https://example.com/a" 0 172800000 "owner1".

(** The store after [shortenUrl("https://example.com/a", "owner1")] at
    instant 0 drew the code "AAAAA". *)
Definition db_created : redis :=
  mkRedis {[ "url:AAAAA" := (record_a, 172800000) ]}
          {[ "user:owner1:urls" := {[ "AAAAA" ]} ]}.

Definition record_a' : UrlMapping :=
  mkUrlMapping "AAAAA" "https://example.com/a" 0 345600000 "owner1".

(** The store after [extendUrl("AAAAA", "owner1")] at instant 1: the key
    lives 345600 seconds from then on, one millisecond longer than the
    record. *)
Definition db_renewed : redis :=
  mkRedis {[ "url:AAAAA" := (record_a', 345600001) ]}
          {[ "user:owner1:urls" := {[ "AAAAA" ]} ]}.

Definition record_a'' : UrlMapping :=
  mkUrlMapping "AAAAA" "https://example.com/a" 0 518400000 "owner1".

(** The store after a second [extendUrl("AAAAA", "owner1")], at
    instant 2. *)
Definition db_renewed_twice : redis :=
  mkRedis {[ "url:AAAAA" := (record_a'', 518400002) ]}
          {[ "user:owner1:urls" := {[ "AAAAA" ]} ]}.

Definition record_b : UrlMapping :=
  mkUrlMapping "BBBBB" "https://example.com/b" 1 172800001 "owner1".

(** Two live mappings of one owner. *)
Definition db_two : redis :=
  mkRedis {[ "url:AAAAA" := (record_a, 172800000);
             "url:BBBBB" := (record_b, 172800001) ]}
          {[ "user:owner1:urls" := {[ "AAAAA"; "BBBBB" ]} ]}.

(** An index entry whose record Redis has already dropped. *)
Definition db_orphan : redis :=
  mkRedis ∅ {[ "user:owner1:urls" := {[ "AAAAA" ]} ]}.

End Sample.

(** ** The redirect route, [src/app/api/[shortUrl]/route.ts] *)

(** The two responses of the handler: the one
    [Response.redirect(longUrl, 302)] builds, and
    [new Response("URL not found or expired", { status: 404 })]. *)
Inductive response : Type :=
  | Redirect (location : string) (status : Z)
  | Plain (body : string) (status : Z).

Section Route.

(** [Response.redirect(url, 302)] parses [url] and puts the serialized
    form of the parsed URL in the [Location] header, so that
    "https://example.com" is sent as "https://example.com/"; it throws
    when [url] does not parse.  [redirect_location url] is that
    serialized form, [None] when the call throws.  Like the parser behind
    [new URL], this is a parameter. *)
Variable redirect_location : string -> option string.

(** [GET(request, context)] for the route parameter [shortUrl]: the handler
    calls [lookupUrl(shortUrl)] with no client id, and its [catch] turns
    whatever is thrown inside the [try] into the 404 response. *)
Definition GET (now : Z) (shortUrl_ : string) (db : redis)
    : response * redis :=
  match lookupUrl now shortUrl_ None db with
  | (Returns mapping, db') =>
      match redirect_location (longUrl mapping) with
      | Some location => (Redirect location 302, db')
      | None => (Plain "URL not found or expired" 404, db')
      end
  | (Throws _, db') => (Plain "URL not found or expired" 404, db')
  end.

End Route.

(** ** Vocabulary of the further properties *)

(** A list of records with the newest first. *)
Definition newest_first (l : list UrlMapping) : Prop :=
  StronglySorted (λ a b, createdAt b <= createdAt a) l.

(** What the actions keep true of a record and of the instant [deadline]
    at which the time to live of its key runs out. *)
Definition well_formed (valid_url : string -> bool) (m : UrlMapping)
    (deadline : Z) : Prop :=
  clientId m ≠ EmptyString
  ∧ valid_url (longUrl m) = true
  ∧ String.length (shortUrl m) = 5%nat
  ∧ (∃ k, 1 <= k ∧ expiresAt m = createdAt m + k * lifetime)
  ∧ expiresAt m <= deadline < expiresAt m + 1000.

(** Every record of the store is well formed and its code is in the index
    of its owner. *)
Definition sound (valid_url : string -> bool) (db : redis) : Prop :=
  ∀ k m d,
    strings db !! k = Some (m, d) →
    well_formed valid_url m d ∧ indexed (clientId m) (shortUrl m) db.

(** The page [getUrls] returns, on a store where the call does not throw. *)
Definition page_of (now : Z) (page pageSize : Z) (o : string) (db : redis)
    : list UrlMapping :=
  match fst (getUrls now page pageSize o db) with
  | Returns p => urls p
  | Throws _ => []
  end.

Module Scenario.

(** The store after "owner1" created "AAAAA" at instant 0, the key ran out
    48 hours later, and "owner2" drew the same code at instant
    172800001: the index of "owner1" still names the code. *)
Definition record_reused : UrlMapping :=
  mkUrlMapping "AAAAA" "https://example.com/b" 172800001 345600001 "owner2".

Definition db_reused : redis :=
  mkRedis {[ "url:AAAAA" := (record_reused, 345600001) ]}
          {[ "user:owner1:urls" := {[ "AAAAA" ]};
             "user:owner2:urls" := {[ "AAAAA" ]} ]}.

(** A stand-in for the serializer of [Response.redirect]: it accepts
    what [Sample.valid_url] accepts and adds the path "/" that the one
    bare origin of the examples lacks. *)
Definition redirect_location (u : string) : option string :=
  if Sample.valid_url u then
    Some (if String.eqb u "https://example.com" then "https://example.com/"
          else u)
  else None.

(** Every draw is 2: every generated code is "CCCCC". *)
Definition rand_two (i : nat) : nat := 2%nat.

Definition record_bare : UrlMapping :=
  mkUrlMapping "CCCCC" "https://example.com" 0 172800000 "owner1".

(** The store after [shortenUrl("https://example.com", "owner1")] at
    instant 0 drew the code "CCCCC". *)
Definition db_bare : redis :=
  mkRedis {[ "url:CCCCC" := (record_bare, 172800000) ]}
          {[ "user:owner1:urls" := {[ "CCCCC" ]} ]}.

End Scenario.

(** * Properties *)

(** ** Keys *)

(** Unfold the key templates down to the constructors of their fixed
    parts. *)
Ltac key_chars := unfold url_key, user_key; cbv [String.append].

Lemma url_key_inj c1 c2 : url_key c1 = url_key c2 → c1 = c2.
Proof. key_chars. congruence. Qed.

Lemma length_append (s1 s2 : string) :
  String.length (s1 +:+ s2) = (String.length s1 + String.length s2)%nat.
Proof.
  induction s1 as [|a s1 IH]; [reflexivity|].
  change (S (String.length (s1 +:+ s2))
          = S (String.length s1 + String.length s2)).
  now rewrite IH.
Qed.

(** Appending on the right is injective, as it is on the left. *)
Lemma append_inj_r (s1 s2 t : string) : s1 +:+ t = s2 +:+ t → s1 = s2.
Proof.
  revert s2. induction s1 as [|a s1 IH]; intros [|b s2] H.
  - reflexivity.
  - apply (f_equal String.length) in H. rewrite !length_append in H.
    cbn in H. lia.
  - apply (f_equal String.length) in H. rewrite !length_append in H.
    cbn in H. lia.
  - change (String a (s1 +:+ t) = String b (s2 +:+ t)) in H.
    injection H as -> H. f_equal. apply IH, H.
Qed.

Lemma user_key_inj o1 o2 : user_key o1 = user_key o2 → o1 = o2.
Proof.
  unfold user_key. intros H. apply String.app_inj in H.
  eapply append_inj_r, H.
Qed.

(** The two key templates never name the same key. *)
Lemma url_key_user_key c o : url_key c ≠ user_key o.
Proof. key_chars. intros H. discriminate H. Qed.

Lemma truthy_true s : truthy s = true ↔ s ≠ EmptyString.
Proof.
  unfold truthy. destruct (String.eqb_spec s ""); cbn; split; congruence.
Qed.

Lemma truthy_false s : truthy s = false ↔ s = EmptyString.
Proof.
  unfold truthy. destruct (String.eqb_spec s ""); cbn; split; congruence.
Qed.

(** ** The Redis commands *)

Lemma get_del_eq k now db : Redis.get k now (Redis.del k db) = None.
Proof. unfold Redis.get, Redis.del. cbn. now rewrite lookup_delete_eq. Qed.

Lemma get_del_ne k k' now db :
  k ≠ k' → Redis.get k' now (Redis.del k db) = Redis.get k' now db.
Proof.
  intros Hne. unfold Redis.get, Redis.del. cbn.
  now rewrite lookup_delete_ne.
Qed.

Lemma get_srem k k' c now db :
  Redis.get k now (Redis.srem k' c db) = Redis.get k now db.
Proof. reflexivity. Qed.

Lemma get_sadd k k' c now db :
  Redis.get k now (Redis.sadd k' c db) = Redis.get k now db.
Proof. reflexivity. Qed.

Lemma get_set_ex_eq k v secs now now' db :
  Redis.get k now' (Redis.set_ex k v secs now db)
  = if now' <=? now + secs * 1000 then Some v else None.
Proof. unfold Redis.get, Redis.set_ex. cbn. now rewrite lookup_insert_eq. Qed.

Lemma get_set_ex_ne k k' v secs now now' db :
  k ≠ k' →
  Redis.get k' now' (Redis.set_ex k v secs now db) = Redis.get k' now' db.
Proof.
  intros Hne. unfold Redis.get, Redis.set_ex. cbn.
  now rewrite lookup_insert_ne.
Qed.

Lemma members_del k k' db :
  Redis.members k (Redis.del k' db) = Redis.members k db.
Proof. reflexivity. Qed.

Lemma members_set_ex k k' v secs now db :
  Redis.members k (Redis.set_ex k' v secs now db) = Redis.members k db.
Proof. reflexivity. Qed.

Lemma members_srem_eq k c db :
  Redis.members k (Redis.srem k c db) = Redis.members k db ∖ {[c]}.
Proof.
  unfold Redis.srem. cbn.
  destruct (decide (Redis.members k db ∖ {[c]} = ∅)) as [He|Hne];
    unfold Redis.members at 1; cbn.
  - now rewrite lookup_delete_eq, He.
  - now rewrite lookup_insert_eq.
Qed.

Lemma members_srem_ne k k' c db :
  k ≠ k' → Redis.members k' (Redis.srem k c db) = Redis.members k' db.
Proof.
  intros Hne. unfold Redis.srem. cbn.
  destruct (decide (Redis.members k db ∖ {[c]} = ∅));
    unfold Redis.members; cbn.
  - now rewrite lookup_delete_ne.
  - now rewrite lookup_insert_ne.
Qed.

Lemma members_sadd_eq k c db :
  Redis.members k (Redis.sadd k c db) = {[c]} ∪ Redis.members k db.
Proof.
  unfold Redis.sadd, Redis.members at 1. cbn. now rewrite lookup_insert_eq.
Qed.

Lemma members_sadd_ne k k' c db :
  k ≠ k' → Redis.members k' (Redis.sadd k c db) = Redis.members k' db.
Proof.
  intros Hne. unfold Redis.sadd, Redis.members. cbn.
  now rewrite lookup_insert_ne.
Qed.

Lemma exists_get k now db :
  Redis.exists_ k now db = false ↔ Redis.get k now db = None.
Proof.
  unfold Redis.exists_. destruct (Redis.get k now db); split; congruence.
Qed.

(** [Math.ceil] rounds up to the next whole number of seconds. *)
Lemma ceil_div_bounds n d :
  0 < d → n <= ceil_div n d * d < n + d.
Proof.
  intros Hd. unfold ceil_div.
  pose proof (Z.div_mod (- n) d ltac:(lia)) as E.
  pose proof (Z.mod_pos_bound (- n) d Hd) as B.
  nia.
Qed.

(** ** The ownership check of [lookupUrl] *)

Lemma denied_none m : denied None m = false.
Proof. reflexivity. Qed.

Lemma denied_empty m : denied (Some EmptyString) m = false.
Proof. reflexivity. Qed.

Lemma denied_owner m : denied (Some (clientId m)) m = false.
Proof.
  unfold denied. rewrite String.eqb_refl. cbn. apply andb_false_r.
Qed.

Lemma denied_other o m :
  o ≠ EmptyString → o ≠ clientId m → denied (Some o) m = true.
Proof.
  intros Ho Hne. unfold denied.
  apply truthy_true in Ho. rewrite Ho. cbn.
  destruct (String.eqb_spec (clientId m) o); [congruence|reflexivity].
Qed.

(** The check lets a call through exactly when no client id is given, the
    empty one is given, or the id of the record's owner is given. *)
Lemma denied_false cid m :
  denied cid m = false
  ↔ cid = None ∨ cid = Some EmptyString ∨ cid = Some (clientId m).
Proof.
  split.
  - destruct cid as [o|]; [|now left]. intros H.
    destruct (String.eqb_spec o ""); [subst; right; now left|].
    destruct (String.eqb_spec o (clientId m)); [subst; right; now right|].
    rewrite denied_other in H; congruence.
  - intros [->|[->| ->]]; auto using denied_none, denied_empty, denied_owner.
Qed.

(** ** [lookupUrl], case by case *)

Lemma lookupUrl_missing now c cid db :
  Redis.get (url_key c) now db = None →
  lookupUrl now c cid db = (Throws NotFoundOrExpired, db).
Proof. intros H. unfold lookupUrl. now rewrite H. Qed.

Lemma lookupUrl_denied now c cid m db :
  stored now c m db → denied cid m = true →
  lookupUrl now c cid db = (Throws UnauthorizedAccess, db).
Proof. intros H D. unfold lookupUrl. now rewrite H, D. Qed.

Lemma lookupUrl_live now c cid m db :
  stored now c m db → denied cid m = false → now < expiresAt m →
  lookupUrl now c cid db = (Returns m, db).
Proof.
  intros H D L. unfold lookupUrl. rewrite H, D.
  destruct (Z.leb_spec (expiresAt m) now); [lia|reflexivity].
Qed.

Lemma lookupUrl_expired_anonymous now c cid m db :
  stored now c m db → cid = None ∨ cid = Some EmptyString →
  expiresAt m <= now →
  lookupUrl now c cid db = (Throws NotFoundOrExpired, Redis.del (url_key c) db).
Proof.
  intros H Hc L. unfold lookupUrl. rewrite H.
  destruct (Z.leb_spec (expiresAt m) now); [|lia].
  now destruct Hc as [-> | ->].
Qed.

Lemma lookupUrl_expired_owner now c o m db :
  stored now c m db → o ≠ EmptyString → o = clientId m →
  expiresAt m <= now →
  lookupUrl now c (Some o) db
  = (Throws NotFoundOrExpired, cleanup o db c).
Proof.
  intros H Ho -> L. unfold lookupUrl. rewrite H, denied_owner.
  destruct (Z.leb_spec (expiresAt m) now); [|lia].
  apply truthy_true in Ho. now rewrite Ho.
Qed.

Lemma not_indexed_cleanup o c db : ¬ indexed o c (cleanup o db c).
Proof.
  unfold indexed, cleanup. rewrite members_srem_eq.
  intros [_ H]%elem_of_difference. apply H. now apply elem_of_singleton.
Qed.

Lemma get_cleanup_eq o c now db :
  Redis.get (url_key c) now (cleanup o db c) = None.
Proof. unfold cleanup. now rewrite get_srem, get_del_eq. Qed.

Lemma get_cleanup_ne o c c' now db :
  c ≠ c' →
  Redis.get (url_key c') now (cleanup o db c) = Redis.get (url_key c') now db.
Proof.
  intros Hne. unfold cleanup. rewrite get_srem, get_del_ne; [reflexivity|].
  intros E. now apply url_key_inj in E.
Qed.

(** ** Claims on [lookupUrl] and on the validation of [shortenUrl] *)

(** C10.  A call of [lookupUrl] with the empty string as client id gives
    the same outcome and the same store as a call with no client id: it
    never throws "Unauthorized access to URL", it returns every live
    record whoever created it, and on an expired record it deletes the
    record key only and leaves every index set as it was. *)
Theorem lookupUrl_empty_owner_as_none now c db :
  lookupUrl now c (Some EmptyString) db = lookupUrl now c None db
  ∧ fst (lookupUrl now c (Some EmptyString) db) ≠ Throws UnauthorizedAccess
  ∧ (∀ m, stored now c m db → now < expiresAt m →
       lookupUrl now c (Some EmptyString) db = (Returns m, db))
  ∧ (∀ m, stored now c m db → expiresAt m <= now →
       lookupUrl now c (Some EmptyString) db
       = (Throws NotFoundOrExpired, Redis.del (url_key c) db)
       ∧ strings (snd (lookupUrl now c (Some EmptyString) db))
         = delete (url_key c) (strings db)
       ∧ (∀ t, Redis.get (url_key c) t
                 (snd (lookupUrl now c (Some EmptyString) db)) = None)
       ∧ sets (snd (lookupUrl now c (Some EmptyString) db)) = sets db
       ∧ (∀ o, indexed o c db →
            indexed o c (snd (lookupUrl now c (Some EmptyString) db)))).
Proof.
  split; [reflexivity|]. split; [|split].
  - unfold lookupUrl. destruct (Redis.get (url_key c) now db) as [m|]; cbn.
    + destruct (expiresAt m <=? now); cbn; discriminate.
    + discriminate.
  - intros m H L. now apply lookupUrl_live.
  - intros m H L.
    rewrite (lookupUrl_expired_anonymous now c _ m) by auto.
    cbn [snd]. split; [reflexivity|]. split; [reflexivity|].
    split; [|split; [reflexivity|]].
    + intros t. apply get_del_eq.
    + intros o I. exact I.
Qed.

Lemma lookupUrl_empty_owner_as_none_witness :
  lookupUrl 5 "AAAAA" (Some EmptyString) Sample.db_created
  = (Returns Sample.record_a, Sample.db_created)
  ∧ stored 345600000 "AAAAA" Sample.record_a' Sample.db_renewed
  ∧ fst (lookupUrl 345600000 "AAAAA" (Some EmptyString) Sample.db_renewed)
    = Throws NotFoundOrExpired
  ∧ Redis.get (url_key "AAAAA") 345600000
      (snd (lookupUrl 345600000 "AAAAA" (Some EmptyString)
              Sample.db_renewed))
    = None
  ∧ indexed "owner1" "AAAAA"
      (snd (lookupUrl 345600000 "AAAAA" (Some EmptyString)
              Sample.db_renewed)).
Proof.
  assert (S : stored 5 "AAAAA" Sample.record_a Sample.db_created)
    by (vm_compute; reflexivity).
  assert (L : 5 < expiresAt Sample.record_a) by (vm_compute; reflexivity).
  assert (S' : stored 345600000 "AAAAA" Sample.record_a' Sample.db_renewed)
    by (vm_compute; reflexivity).
  assert (L' : expiresAt Sample.record_a' <= 345600000)
    by (vm_compute; discriminate).
  split.
  - exact (proj1 (proj2 (proj2
      (lookupUrl_empty_owner_as_none 5 "AAAAA" Sample.db_created)))
      Sample.record_a S L).
  - destruct (proj2 (proj2 (proj2
      (lookupUrl_empty_owner_as_none 345600000 "AAAAA" Sample.db_renewed)))
      Sample.record_a' S' L') as (E & _ & G & _ & I).
    split; [exact S'|]. split; [now rewrite E|].
    split; [apply G|]. apply I. vm_compute. reflexivity.
Defined.

(** C2 (as amended).  For every stored mapping, [lookupUrl] called with a
    non-empty client id different from the record's client id throws
    "Unauthorized access to URL" (an error of kind Unauthorized, not
    NotFound) and leaves the store alone; called with no client id it
    returns a live record whoever created it. *)
Theorem lookupUrl_ownership now c m db :
  stored now c m db →
  (∀ o, o ≠ EmptyString → o ≠ clientId m →
     lookupUrl now c (Some o) db = (Throws UnauthorizedAccess, db)
     ∧ kind_of UnauthorizedAccess = Unauthorized
     ∧ kind_of UnauthorizedAccess ≠ NotFound)
  ∧ (now < expiresAt m → lookupUrl now c None db = (Returns m, db)).
Proof.
  intros H. split.
  - intros o Ho Hne. split; [|split; [reflexivity|discriminate]].
    apply (lookupUrl_denied now c (Some o) m); [exact H|].
    now apply denied_other.
  - intros L. now apply lookupUrl_live.
Qed.

Lemma lookupUrl_ownership_witness :
  lookupUrl 5 "AAAAA" (Some "owner2") Sample.db_created
  = (Throws UnauthorizedAccess, Sample.db_created)
  ∧ lookupUrl 5 "AAAAA" None Sample.db_created
    = (Returns Sample.record_a, Sample.db_created).
Proof.
  assert (S : stored 5 "AAAAA" Sample.record_a Sample.db_created)
    by (vm_compute; reflexivity).
  destruct (lookupUrl_ownership 5 "AAAAA" Sample.record_a Sample.db_created S)
    as [D A].
  split.
  - apply (D "owner2"); discriminate.
  - apply A. vm_compute. reflexivity.
Defined.

(** C2 as it was stated fails for the empty client id: it differs from the
    id of the record's owner, and the call returns the record. *)
Lemma lookupUrl_empty_owner_not_refused :
  stored 5 "AAAAA" Sample.record_a Sample.db_created
  ∧ EmptyString ≠ clientId Sample.record_a
  ∧ lookupUrl 5 "AAAAA" (Some EmptyString) Sample.db_created
    = (Returns Sample.record_a, Sample.db_created).
Proof.
  split; [vm_compute; reflexivity|]. split; [discriminate|].
  vm_compute. reflexivity.
Qed.

(** The sample store [Sample.db_renewed] is the one the actions build:
    create at instant 0, renew at instant 1. *)
Lemma db_renewed_run :
  shortenUrl Sample.valid_url 0 Sample.rand_zero 0
    "https://example.com/a" "owner1" redis_empty
  = Some (Returns "AAAAA", Sample.db_created)
  ∧ extendUrl 1 "AAAAA" "owner1" Sample.db_created
    = (Returns true, Sample.db_renewed).
Proof. split; vm_compute; reflexivity. Qed.

(** C4 (as amended).  Take a stored mapping and a call of [lookupUrl] that
    passes the ownership check: no client id, the empty one, or the id of
    the record's owner.  If the record has expired, the call throws
    "URL not found or expired" and deletes the record key; it removes the
    code from the index of the client id when a non-empty one was given and
    leaves every index set alone otherwise; any later call for the same
    code throws "URL not found or expired" again and changes nothing.  If
    the record is live, the call returns it and the store is unchanged. *)
Theorem lookupUrl_expiry now c m cid db :
  stored now c m db →
  cid = None ∨ cid = Some EmptyString ∨ cid = Some (clientId m) →
  (expiresAt m <= now →
     fst (lookupUrl now c cid db) = Throws NotFoundOrExpired
     ∧ kind_of NotFoundOrExpired = NotFound
     ∧ strings (snd (lookupUrl now c cid db))
       = delete (url_key c) (strings db)
     ∧ (∀ o, cid = Some o → o ≠ EmptyString →
          snd (lookupUrl now c cid db) = cleanup o db c
          ∧ ¬ indexed o c (snd (lookupUrl now c cid db)))
     ∧ (cid = None ∨ cid = Some EmptyString →
          snd (lookupUrl now c cid db) = Redis.del (url_key c) db
          ∧ sets (snd (lookupUrl now c cid db)) = sets db)
     ∧ (∀ now' cid',
          lookupUrl now' c cid' (snd (lookupUrl now c cid db))
          = (Throws NotFoundOrExpired, snd (lookupUrl now c cid db))))
  ∧ (now < expiresAt m → lookupUrl now c cid db = (Returns m, db)).
Proof.
  intros H Hc. split.
  - intros L.
    assert (Hcases :
      (cid = None ∨ cid = Some EmptyString)
      ∨ ∃ o, cid = Some o ∧ o ≠ EmptyString ∧ o = clientId m).
    { destruct Hc as [->|[->| ->]]; [left; now left|left; now right|].
      destruct (String.eqb_spec (clientId m) "") as [E|N].
      - left. right. now rewrite E.
      - right. now exists (clientId m). }
    destruct Hcases as [Ha|(o & -> & Ho & Hm)].
    + rewrite (lookupUrl_expired_anonymous now c cid m db H Ha L).
      cbn [fst snd].
      split; [reflexivity|]. split; [reflexivity|]. split; [reflexivity|].
      split; [|split].
      * intros o -> Ho. destruct Ha as [Ha|Ha]; congruence.
      * intros _. split; reflexivity.
      * intros now' cid'. apply lookupUrl_missing, get_del_eq.
    + rewrite (lookupUrl_expired_owner now c o m db H Ho Hm L).
      cbn [fst snd].
      split; [reflexivity|]. split; [reflexivity|]. split; [reflexivity|].
      split; [|split].
      * intros o' [= <-] _. split; [reflexivity|apply not_indexed_cleanup].
      * intros [Ha|Ha]; congruence.
      * intros now' cid'. apply lookupUrl_missing, get_cleanup_eq.
  - intros L. apply lookupUrl_live; auto. now apply denied_false.
Qed.

Lemma lookupUrl_expiry_witness :
  lookupUrl 345600000 "AAAAA" (Some "owner1") Sample.db_renewed
  = (Throws NotFoundOrExpired, cleanup "owner1" Sample.db_renewed "AAAAA")
  ∧ lookupUrl 5 "AAAAA" (Some "owner1") Sample.db_renewed
    = (Returns Sample.record_a', Sample.db_renewed).
Proof.
  assert (S1 : stored 345600000 "AAAAA" Sample.record_a' Sample.db_renewed)
    by (vm_compute; reflexivity).
  assert (S2 : stored 5 "AAAAA" Sample.record_a' Sample.db_renewed)
    by (vm_compute; reflexivity).
  assert (O : Some "owner1" = None ∨ Some "owner1" = Some EmptyString
              ∨ Some "owner1" = Some (clientId Sample.record_a'))
    by (right; right; reflexivity).
  split.
  - destruct (lookupUrl_expiry 345600000 "AAAAA" Sample.record_a'
                (Some "owner1") Sample.db_renewed S1 O) as [E _].
    destruct E as (E1 & _ & _ & E2 & _); [vm_compute; discriminate|].
    destruct (E2 "owner1" eq_refl) as [E3 _]; [discriminate|].
    rewrite <- E1, <- E3. apply surjective_pairing.
  - destruct (lookupUrl_expiry 5 "AAAAA" Sample.record_a'
                (Some "owner1") Sample.db_renewed S2 O) as [_ E].
    apply E. vm_compute. reflexivity.
Defined.

(** C4 as it was stated fails for a caller who is not the owner: the
    record of [Sample.db_renewed] has expired at instant 345600000 and
    Redis still shows it, yet the call throws "Unauthorized access to URL"
    and the record stays. *)
Lemma lookupUrl_expired_other_owner :
  stored 345600000 "AAAAA" Sample.record_a' Sample.db_renewed
  ∧ expiresAt Sample.record_a' <= 345600000
  ∧ lookupUrl 345600000 "AAAAA" (Some "owner2") Sample.db_renewed
    = (Throws UnauthorizedAccess, Sample.db_renewed)
  ∧ kind_of UnauthorizedAccess ≠ NotFound.
Proof.
  split; [vm_compute; reflexivity|]. split; [vm_compute; discriminate|].
  split; [vm_compute; reflexivity|discriminate].
Qed.

(** C7.  When the client id is empty or the URL does not parse,
    [shortenUrl] throws an error of kind InvalidInput ("Client ID
    required", "Invalid URL") whatever the store, the instant and the
    random draws are, and it hands the store back as it found it: nothing
    is read, no record or index entry is written and no code is drawn. *)
Theorem shortenUrl_invalid_input valid_url u o :
  o = EmptyString ∨ valid_url u = false →
  ∃ e, kind_of e = InvalidInput
       ∧ ∀ fuel rand now db,
           shortenUrl valid_url fuel rand now u o db = Some (Throws e, db).
Proof.
  intros H. unfold shortenUrl.
  destruct (truthy o) eqn:T; cbn.
  - destruct H as [->|V]; [discriminate T|].
    exists InvalidUrl. split; [reflexivity|]. intros. now rewrite V.
  - exists ClientIdRequired. split; [reflexivity|]. reflexivity.
Qed.

Lemma shortenUrl_invalid_input_witness :
  ∃ e, kind_of e = InvalidInput
       ∧ ∀ fuel rand now db,
           shortenUrl Sample.valid_url fuel rand now "not-a-url" "owner1" db
           = Some (Throws e, db).
Proof.
  apply (shortenUrl_invalid_input Sample.valid_url "not-a-url" "owner1").
  right. reflexivity.
Defined.

(** ** The code generator *)

Lemma get_in_range (s : string) :
  ∀ n, (n < String.length s)%nat → ∃ c, String.get n s = Some c.
Proof.
  induction s as [|a s IH]; intros n Hn; cbn in Hn; [lia|].
  destruct n as [|n]; cbn; [now exists a|]. apply IH. lia.
Qed.

Lemma charAt_draw_length rand i :
  String.length (charAt chars (draw rand i)) = 1%nat.
Proof.
  unfold charAt, draw.
  destruct (get_in_range chars (rand i mod String.length chars)) as [c G].
  - apply Nat.mod_upper_bound. discriminate.
  - now rewrite G.
Qed.

Lemma generate_loop_length n rand :
  ∀ pos result,
    String.length (generate_loop n rand pos result)
    = (String.length result + n)%nat.
Proof.
  induction n as [|n IH]; intros pos result; cbn [generate_loop].
  - lia.
  - rewrite IH, length_append, charAt_draw_length. lia.
Qed.

(** Every generated code has five characters. *)
Lemma candidate_length rand i : String.length (candidate rand i) = 5%nat.
Proof.
  unfold candidate, generateShortCode. cbn [fst].
  now rewrite generate_loop_length.
Qed.

(** ** The retry loop of [shortenUrl] *)

Lemma generate_next rand k :
  generateShortCode rand (5 * (k + 1))
  = (candidate rand (k + 1), (5 * (k + 2))%nat).
Proof.
  unfold candidate, generateShortCode. cbn [fst]. f_equal. lia.
Qed.

Lemma retry_unfold fuel rand k now db :
  retry fuel rand (5 * (k + 1)) now db (candidate rand k)
  = if Redis.exists_ (url_key (candidate rand k)) now db then
      match fuel with
      | O => None
      | S fuel' =>
          retry fuel' rand (5 * (k + 2)) now db (candidate rand (k + 1))
      end
    else Some (candidate rand k).
Proof.
  destruct fuel as [|fuel']; cbn [retry]; [reflexivity|].
  now rewrite generate_next.
Qed.

(** When the codes number [k] to [k + n - 1] are taken and code number
    [k + n] is free, the loop that starts at code [k] runs its body [n]
    times and ends with code [k + n]. *)
Lemma retry_finds rand now db n :
  ∀ k fuel,
    (∀ i, (k <= i < k + n)%nat → collides rand now db i) →
    ¬ collides rand now db (k + n) →
    retry fuel rand (5 * (k + 1)) now db (candidate rand k)
    = if (n <=? fuel)%nat then Some (candidate rand (k + n)) else None.
Proof.
  induction n as [|n IH]; intros k fuel Hc Hf; rewrite retry_unfold.
  - rewrite Nat.add_0_r in Hf. unfold collides in Hf.
    destruct (Redis.exists_ _ now db); [congruence|].
    now rewrite Nat.add_0_r.
  - rewrite (Hc k) by lia.
    destruct fuel as [|fuel']; [reflexivity|].
    replace (k + 2)%nat with (k + 1 + 1)%nat by lia.
    rewrite IH.
    + replace (k + 1 + n)%nat with (k + S n)%nat by lia. reflexivity.
    + intros i Hi. apply Hc. lia.
    + replace (k + 1 + n)%nat with (k + S n)%nat by lia. exact Hf.
Qed.

(** When every code is taken the loop is still running after any number of
    rounds. *)
Lemma retry_runs_on rand now db fuel :
  ∀ k,
    (∀ i, collides rand now db i) →
    retry fuel rand (5 * (k + 1)) now db (candidate rand k) = None.
Proof.
  induction fuel as [|fuel IH]; intros k Hc; rewrite retry_unfold, (Hc k).
  - reflexivity.
  - replace (k + 2)%nat with (k + 1 + 1)%nat by lia. now apply IH.
Qed.

(** The loop ends only with a code whose key the existence check did not
    find. *)
Lemma retry_free fuel rand now db :
  ∀ pos c0 c,
    retry fuel rand pos now db c0 = Some c →
    Redis.exists_ (url_key c) now db = false.
Proof.
  induction fuel as [|fuel IH]; intros pos c0 c; cbn [retry];
    destruct (Redis.exists_ (url_key c0) now db) eqn:E; try discriminate.
  - now intros [= <-].
  - destruct (generateShortCode rand pos) as [c1 pos1]. apply IH.
  - now intros [= <-].
Qed.

(** [shortenUrl] on arguments that pass the validation. *)
Lemma shortenUrl_valid valid_url fuel rand now u o db :
  o ≠ EmptyString → valid_url u = true →
  shortenUrl valid_url fuel rand now u o db
  = match retry fuel rand 5 now db (candidate rand 0) with
    | Some c => Some (Returns c, persist now u o c db)
    | None => None
    end.
Proof.
  intros Ho Hv. apply truthy_true in Ho. unfold shortenUrl.
  rewrite Ho, Hv. cbn [negb].
  change (generateShortCode rand 0) with (candidate rand 0, 5%nat).
  cbv beta iota. reflexivity.
Qed.

(** What a returning call of [shortenUrl] has done. *)
Lemma shortenUrl_returns valid_url fuel rand now u o db c db' :
  shortenUrl valid_url fuel rand now u o db = Some (Returns c, db') →
  o ≠ EmptyString ∧ valid_url u = true
  ∧ Redis.exists_ (url_key c) now db = false
  ∧ db' = persist now u o c db.
Proof.
  intros H.
  assert (Ho : o ≠ EmptyString).
  { intros ->. unfold shortenUrl in H. cbn in H. discriminate. }
  assert (Hv : valid_url u = true).
  { unfold shortenUrl in H. apply truthy_true in Ho. rewrite Ho in H.
    cbn [negb] in H. destruct (valid_url u); [reflexivity|discriminate]. }
  rewrite shortenUrl_valid in H by assumption.
  destruct (retry fuel rand 5 now db (candidate rand 0)) as [c'|] eqn:R;
    [|discriminate].
  injection H as -> <-. apply retry_free in R. auto.
Qed.

Lemma lifetime_seconds now :
  ceil_div (now + lifetime - now) 1000 * 1000 = lifetime.
Proof.
  replace (now + lifetime - now) with lifetime by lia. reflexivity.
Qed.

(** After [shortenUrl] the new record is shown until it expires. *)
Lemma stored_persist now u o c db t :
  t < now + lifetime →
  stored t c (new_mapping now u o c) (persist now u o c db).
Proof.
  intros Ht. unfold stored, persist.
  rewrite get_sadd, get_set_ex_eq, lifetime_seconds.
  destruct (Z.leb_spec t (now + lifetime)); [reflexivity|lia].
Qed.

Lemma stored_persist_other now u o c c' m db t :
  c' ≠ c → stored t c' m db → stored t c' m (persist now u o c db).
Proof.
  intros Hne H. unfold stored, persist.
  rewrite get_sadd, get_set_ex_ne; [exact H|].
  intros E. apply url_key_inj in E. congruence.
Qed.

Lemma indexed_persist now u o c db : indexed o c (persist now u o c db).
Proof.
  unfold indexed, persist. rewrite members_sadd_eq.
  apply elem_of_union_l. now apply elem_of_singleton.
Qed.

Lemma retry_finds_first rand now db n fuel :
  (∀ i, (i < n)%nat → collides rand now db i) →
  ¬ collides rand now db n →
  retry fuel rand 5 now db (candidate rand 0)
  = if (n <=? fuel)%nat then Some (candidate rand n) else None.
Proof.
  intros Hc Hf. apply (retry_finds rand now db n 0%nat fuel).
  - intros i Hi. apply Hc. lia.
  - exact Hf.
Qed.

Lemma shortenUrl_finds valid_url fuel rand now u o db n :
  o ≠ EmptyString → valid_url u = true →
  (∀ i, (i < n)%nat → collides rand now db i) →
  ¬ collides rand now db n →
  shortenUrl valid_url fuel rand now u o db
  = if (n <=? fuel)%nat
    then Some (Returns (candidate rand n),
               persist now u o (candidate rand n) db)
    else None.
Proof.
  intros Ho Hv Hc Hf. rewrite shortenUrl_valid by assumption.
  rewrite (retry_finds_first rand now db n fuel Hc Hf).
  now destruct (n <=? fuel)%nat.
Qed.

Lemma shortenUrl_runs_on valid_url fuel rand now u o db :
  o ≠ EmptyString → valid_url u = true →
  (∀ i, collides rand now db i) →
  shortenUrl valid_url fuel rand now u o db = None.
Proof.
  intros Ho Hv Hc. rewrite shortenUrl_valid by assumption.
  pose proof (retry_runs_on rand now db fuel 0%nat Hc) as R.
  change (5 * (0 + 1))%nat with 5%nat in R. now rewrite R.
Qed.

(** ** Claims on the creation of a mapping *)

(** C9 (as amended).  The collision-retry loop of [shortenUrl] has no
    bound.  On arguments that pass the validation: when the first [n]
    generated codes are taken and the next one is free, the call draws
    [n] more codes after the first and returns the free one, however large
    [n] is, and the loop is still running after fewer than [n] rounds; when
    every generated code is taken the call never returns; and the call
    throws no error at all, so there is no failure for exhausted
    retries. *)
Theorem shortenUrl_retry_unbounded valid_url rand now u o db :
  o ≠ EmptyString → valid_url u = true →
  (∀ n, (∀ i, (i < n)%nat → collides rand now db i) →
        ¬ collides rand now db n →
        (∀ fuel, (n <= fuel)%nat →
           shortenUrl valid_url fuel rand now u o db
           = Some (Returns (candidate rand n),
                   persist now u o (candidate rand n) db))
        ∧ (∀ fuel, (fuel < n)%nat →
             shortenUrl valid_url fuel rand now u o db = None))
  ∧ ((∀ i, collides rand now db i) →
       ∀ fuel, shortenUrl valid_url fuel rand now u o db = None)
  ∧ (∀ fuel e db',
       shortenUrl valid_url fuel rand now u o db ≠ Some (Throws e, db')).
Proof.
  intros Ho Hv. split; [|split].
  - intros n Hc Hf. split; intros fuel Hfuel;
      rewrite (shortenUrl_finds valid_url fuel rand now u o db n) by assumption.
    + destruct (Nat.leb_spec n fuel); [reflexivity|lia].
    + destruct (Nat.leb_spec n fuel); [lia|reflexivity].
  - intros Hc fuel. now apply shortenUrl_runs_on.
  - intros fuel e db'. rewrite shortenUrl_valid by assumption.
    destruct (retry fuel rand 5 now db (candidate rand 0)); discriminate.
Qed.

Lemma rand_late_collides i :
  (i < 11)%nat → collides Sample.rand_late 5 Sample.db_created i.
Proof.
  intros Hi.
  do 11 (destruct i as [|i]; [vm_compute; reflexivity|]). lia.
Defined.

Lemma shortenUrl_retry_unbounded_witness :
  shortenUrl Sample.valid_url 11 Sample.rand_late 5
    "https://example.com/b" "owner2" Sample.db_created
  = Some (Returns "BBBBB",
          persist 5 "https://example.com/b" "owner2" "BBBBB"
            Sample.db_created)
  ∧ shortenUrl Sample.valid_url 10 Sample.rand_late 5
      "https://example.com/b" "owner2" Sample.db_created
    = None.
Proof.
  assert (Ho : "owner2" ≠ EmptyString) by discriminate.
  assert (Hv : Sample.valid_url "https://example.com/b" = true)
    by reflexivity.
  destruct (shortenUrl_retry_unbounded Sample.valid_url Sample.rand_late 5
              "https://example.com/b" "owner2" Sample.db_created Ho Hv)
    as [F _].
  destruct (F 11%nat rand_late_collides) as [F1 F2].
  - vm_compute. discriminate.
  - split; [apply (F1 11%nat); lia|apply (F2 10%nat); lia].
Defined.

Lemma rand_zero_collides i : collides Sample.rand_zero 5 Sample.db_created i.
Proof. reflexivity. Qed.

(** C9 as it was stated fails: with the code "AAAAA" taken and a generator
    that keeps drawing it, no number of rounds makes the call return or
    throw; and with eleven collisions in a row the call returns the twelfth
    code after eleven retries, where ten rounds are not enough. *)
Lemma shortenUrl_retries_without_bound :
  ¬ (∃ fuel r,
       shortenUrl Sample.valid_url fuel Sample.rand_zero 5
         "https://example.com/b" "owner2" Sample.db_created = Some r)
  ∧ shortenUrl Sample.valid_url 10 Sample.rand_late 5
      "https://example.com/b" "owner2" Sample.db_created = None
  ∧ shortenUrl Sample.valid_url 11 Sample.rand_late 5
      "https://example.com/b" "owner2" Sample.db_created
    = Some (Returns "BBBBB",
            persist 5 "https://example.com/b" "owner2" "BBBBB"
              Sample.db_created).
Proof.
  split; [|split].
  - intros (fuel & r & H).
    rewrite shortenUrl_runs_on in H;
      [discriminate|discriminate|reflexivity|apply rand_zero_collides].
  - vm_compute. reflexivity.
  - vm_compute. reflexivity.
Qed.

(** C1.  Let the URL parse and the client id be non-empty.  Whenever
    [shortenUrl] returns a code, [lookupUrl] called next with that code and
    the same client id returns a record whose [longUrl] is the URL given,
    and leaves the store alone; it does so at the instant of the creation
    and at every later instant until the 48 hours are over.  And
    [shortenUrl] does return a code as soon as one of the codes it
    generates is free. *)
Theorem create_then_resolve valid_url rand now u o db :
  valid_url u = true → o ≠ EmptyString →
  (∀ fuel c db',
     shortenUrl valid_url fuel rand now u o db = Some (Returns c, db') →
     (∃ m, lookupUrl now c (Some o) db' = (Returns m, db')
           ∧ longUrl m = u ∧ shortUrl m = c ∧ clientId m = o)
     ∧ (∀ t, now <= t < now + lifetime →
          ∃ m, lookupUrl t c (Some o) db' = (Returns m, db')
               ∧ longUrl m = u ∧ shortUrl m = c ∧ clientId m = o))
  ∧ (∀ n fuel,
       (∀ i, (i < n)%nat → collides rand now db i) →
       ¬ collides rand now db n → (n <= fuel)%nat →
       ∃ c db',
         shortenUrl valid_url fuel rand now u o db = Some (Returns c, db')).
Proof.
  intros Hv Ho. split.
  - intros fuel c db' H.
    apply shortenUrl_returns in H as (_ & _ & _ & ->).
    assert (G : ∀ t, now <= t < now + lifetime →
              ∃ m, lookupUrl t c (Some o) (persist now u o c db)
                   = (Returns m, persist now u o c db)
                   ∧ longUrl m = u ∧ shortUrl m = c ∧ clientId m = o).
    { intros t Ht. exists (new_mapping now u o c). split; [|repeat split].
      apply lookupUrl_live.
      - apply stored_persist. lia.
      - apply (denied_owner (new_mapping now u o c)).
      - cbn. lia. }
    split; [|exact G]. apply G. unfold lifetime. lia.
  - intros n fuel Hc Hf Hfuel.
    exists (candidate rand n), (persist now u o (candidate rand n) db).
    rewrite (shortenUrl_finds valid_url fuel rand now u o db n) by assumption.
    destruct (Nat.leb_spec n fuel); [reflexivity|lia].
Qed.

Lemma create_then_resolve_witness :
  shortenUrl Sample.valid_url 0 Sample.rand_zero 0
    "https://example.com/a" "owner1" redis_empty
  = Some (Returns "AAAAA", Sample.db_created)
  ∧ ∃ m, lookupUrl 5 "AAAAA" (Some "owner1") Sample.db_created
         = (Returns m, Sample.db_created)
         ∧ longUrl m = "https://example.com/a"
         ∧ shortUrl m = "AAAAA" ∧ clientId m = "owner1".
Proof.
  assert (C : shortenUrl Sample.valid_url 0 Sample.rand_zero 0
                "https://example.com/a" "owner1" redis_empty
              = Some (Returns "AAAAA", Sample.db_created))
    by (vm_compute; reflexivity).
  split; [exact C|].
  refine (proj2 (proj1 (create_then_resolve Sample.valid_url Sample.rand_zero
            0 "https://example.com/a" "owner1" redis_empty _ _)
          0%nat "AAAAA" Sample.db_created C) 5 _).
  - reflexivity.
  - discriminate.
  - unfold lifetime. lia.
Defined.

(** ** [extendUrl] *)

Lemma extendUrl_live now c o m db :
  stored now c m db → o ≠ EmptyString → clientId m = o →
  now < expiresAt m →
  extendUrl now c o db
  = (Returns true,
     Redis.set_ex (url_key c) (renewed m)
       (ceil_div (expiresAt m + lifetime - now) 1000) now db).
Proof.
  intros H Ho Hm L. subst o. unfold extendUrl.
  apply truthy_true in Ho. rewrite Ho, H. cbn [negb].
  rewrite String.eqb_refl. cbn [negb].
  destruct (Z.leb_spec (expiresAt m) now); [lia|reflexivity].
Qed.

(** The key written by a renewal outlives the record it holds. *)
Lemma stored_renewed now c m db t :
  t < expiresAt m + lifetime →
  stored t c (renewed m)
    (Redis.set_ex (url_key c) (renewed m)
       (ceil_div (expiresAt m + lifetime - now) 1000) now db).
Proof.
  intros Ht. unfold stored. rewrite get_set_ex_eq.
  pose proof (ceil_div_bounds (expiresAt m + lifetime - now) 1000 ltac:(lia)).
  destruct (Z.leb_spec t
    (now + ceil_div (expiresAt m + lifetime - now) 1000 * 1000));
    [reflexivity|lia].
Qed.

(** C3 (as amended).  For every live mapping owned by the caller, one call
    of [extendUrl] succeeds and rewrites the record with [expiresAt] moved
    to exactly 48 hours after its prior value, whatever the instant of the
    call, and with every other field as it was; the time to live of the
    key is the new remaining lifetime in seconds, rounded up, so that the
    record is shown for all of its new lifetime.  A second call then
    succeeds too and leaves [expiresAt] 96 hours after the value it had
    before the first; for a freshly created mapping, whose [expiresAt] is
    48 hours after [createdAt], that is 144 hours after the creation. *)
Theorem extendUrl_adds_lifetime now c o m db :
  stored now c m db → o ≠ EmptyString → clientId m = o →
  now < expiresAt m →
  extendUrl now c o db
  = (Returns true,
     Redis.set_ex (url_key c) (renewed m)
       (ceil_div (expiresAt (renewed m) - now) 1000) now db)
  ∧ expiresAt (renewed m) = expiresAt m + 48 * 60 * 60 * 1000
  ∧ (shortUrl (renewed m), longUrl (renewed m), createdAt (renewed m),
     clientId (renewed m))
    = (shortUrl m, longUrl m, createdAt m, clientId m)
  ∧ expiresAt (renewed m) - now
    <= ceil_div (expiresAt (renewed m) - now) 1000 * 1000
    < expiresAt (renewed m) - now + 1000
  ∧ (∀ t, t < expiresAt (renewed m) →
       stored t c (renewed m) (snd (extendUrl now c o db)))
  ∧ (∀ now2, now2 < expiresAt (renewed m) →
       ∃ db2,
         extendUrl now2 c o (snd (extendUrl now c o db)) = (Returns true, db2)
         ∧ (∀ t, t < expiresAt (renewed (renewed m)) →
              stored t c (renewed (renewed m)) db2)
         ∧ expiresAt (renewed (renewed m))
           = expiresAt m + 96 * 60 * 60 * 1000
         ∧ (expiresAt m = createdAt m + 48 * 60 * 60 * 1000 →
            expiresAt (renewed (renewed m))
            = createdAt (renewed (renewed m)) + 144 * 60 * 60 * 1000)).
Proof.
  intros H Ho Hm L.
  pose proof (extendUrl_live now c o m db H Ho Hm L) as E.
  split; [exact E|]. split; [reflexivity|]. split; [reflexivity|].
  split; [apply ceil_div_bounds; lia|]. split.
  - intros t Ht. rewrite E. apply stored_renewed. exact Ht.
  - intros now2 L2. rewrite E. cbn [snd].
    eexists. split; [|split; [|split]].
    + apply (extendUrl_live now2 c o (renewed m)); try assumption.
      apply stored_renewed. exact L2.
    + intros t Ht. apply (stored_renewed now2 c (renewed m)). exact Ht.
    + cbn. unfold lifetime. lia.
    + cbn. unfold lifetime. lia.
Qed.

Lemma extendUrl_adds_lifetime_witness :
  extendUrl 1 "AAAAA" "owner1" Sample.db_created
  = (Returns true, Sample.db_renewed)
  ∧ stored 2 "AAAAA" Sample.record_a' Sample.db_renewed
  ∧ expiresAt Sample.record_a' = expiresAt Sample.record_a + 172800000.
Proof.
  assert (S : stored 1 "AAAAA" Sample.record_a Sample.db_created)
    by (vm_compute; reflexivity).
  assert (Ho : "owner1" ≠ EmptyString) by discriminate.
  assert (L : 1 < expiresAt Sample.record_a) by (vm_compute; reflexivity).
  destruct (extendUrl_adds_lifetime 1 "AAAAA" "owner1" Sample.record_a
              Sample.db_created S Ho eq_refl L)
    as (E & X & _ & _ & V & _).
  split; [exact E|]. split; [|exact X].
  apply (V 2). vm_compute. reflexivity.
Defined.

(** C3 as it was stated fails on its last figure: a mapping created at
    instant 0 and renewed twice expires 144 hours after its creation, not
    96. *)
Lemma two_renewals_of_a_fresh_mapping :
  shortenUrl Sample.valid_url 0 Sample.rand_zero 0
    "https://example.com/a" "owner1" redis_empty
  = Some (Returns "AAAAA", Sample.db_created)
  ∧ extendUrl 1 "AAAAA" "owner1" Sample.db_created
    = (Returns true, Sample.db_renewed)
  ∧ extendUrl 2 "AAAAA" "owner1" Sample.db_renewed
    = (Returns true, Sample.db_renewed_twice)
  ∧ stored 3 "AAAAA" Sample.record_a'' Sample.db_renewed_twice
  ∧ expiresAt Sample.record_a''
    = createdAt Sample.record_a'' + 144 * 60 * 60 * 1000
  ∧ expiresAt Sample.record_a''
    ≠ createdAt Sample.record_a'' + 96 * 60 * 60 * 1000.
Proof.
  repeat split; try (vm_compute; reflexivity).
  vm_compute. discriminate.
Qed.

(** ** The loop of [getUrls] *)

Lemma kept_cleanup_ne now o c c' db :
  c ≠ c' → kept now o (cleanup o db c) c' = kept now o db c'.
Proof. intros Hne. unfold kept. now rewrite get_cleanup_ne. Qed.

Lemma stale_cleanup_ne now o c c' db :
  c ≠ c' → stale now o (cleanup o db c) c' = stale now o db c'.
Proof. intros Hne. unfold stale. now rewrite get_cleanup_ne. Qed.

Lemma omap_kept_cleanup now o c db (l : list string) :
  c ∉ l → omap (kept now o (cleanup o db c)) l = omap (kept now o db) l.
Proof.
  induction l as [|a l IH]; intros Hc; [reflexivity|].
  apply not_elem_of_cons in Hc as [Hne Hl]. cbn.
  now rewrite kept_cleanup_ne, IH.
Qed.

Lemma filter_stale_cleanup now o c db (l : list string) :
  c ∉ l →
  List.filter (stale now o (cleanup o db c)) l
  = List.filter (stale now o db) l.
Proof.
  induction l as [|a l IH]; intros Hc; [reflexivity|].
  apply not_elem_of_cons in Hc as [Hne Hl]. cbn.
  now rewrite stale_cleanup_ne, IH.
Qed.

(** One round of the loop, by the three cases of the fetched record. *)
Lemma getUrls_step_cases now o acc db c :
  getUrls_step now o (acc, db) c
  = match kept now o db c with
    | Some m => (acc ++ [m], db)
    | None => (acc, if stale now o db c then cleanup o db c else db)
    end.
Proof.
  unfold getUrls_step, kept, stale, live_owned, cleanup.
  destruct (Redis.get (url_key c) now db) as [m|]; [|reflexivity].
  now destruct ((now <? expiresAt m) && String.eqb (clientId m) o).
Qed.

(** The loop over distinct codes collects the records that pass the test,
    in the order of the scan, and cleans up the codes whose record fails
    it; what it does for one code does not depend on the rounds before. *)
Lemma getUrls_loop_spec now o (codes : list string) :
  ∀ acc db,
    NoDup codes →
    foldl (getUrls_step now o) (acc, db) codes
    = (acc ++ omap (kept now o db) codes,
       foldl (cleanup o) db (List.filter (stale now o db) codes)).
Proof.
  induction codes as [|c codes IH]; intros acc db Hnd.
  - cbn. now rewrite app_nil_r.
  - apply NoDup_cons in Hnd as [Hc Hnd].
    cbn [foldl]. rewrite getUrls_step_cases.
    cbn [omap list_omap List.filter].
    destruct (kept now o db c) as [m|] eqn:K.
    + assert (S : stale now o db c = false).
      { unfold kept in K. unfold stale.
        destruct (Redis.get (url_key c) now db) as [m'|]; [|reflexivity].
        destruct (live_owned now o m'); [reflexivity|discriminate]. }
      rewrite S, IH by assumption. now rewrite <- app_assoc.
    + destruct (stale now o db c) eqn:S.
      * rewrite IH by assumption.
        now rewrite omap_kept_cleanup, filter_stale_cleanup.
      * now rewrite IH.
Qed.

Lemma strings_foldl_cleanup o (l : list string) :
  ∀ db k,
    strings (foldl (cleanup o) db l) !! k
    = if decide (k ∈ url_key <$> l) then None else strings db !! k.
Proof.
  induction l as [|a l IH]; intros db k.
  - cbn. destruct (decide (k ∈ [])) as [H|H]; [|reflexivity].
    now apply elem_of_nil in H.
  - cbn [foldl fmap list_fmap]. rewrite IH.
    change (strings (cleanup o db a)) with (delete (url_key a) (strings db)).
    destruct (decide (k ∈ url_key <$> l)) as [H|H].
    + rewrite decide_True; [reflexivity|]. now apply elem_of_cons; right.
    + destruct (decide (k = url_key a)) as [->|Hne].
      * rewrite decide_True by (apply elem_of_cons; now left).
        apply lookup_delete_eq.
      * rewrite decide_False.
        -- now apply lookup_delete_ne.
        -- intros [?|?]%elem_of_cons; congruence.
Qed.

Lemma get_foldl_cleanup_in o (l : list string) db c t :
  c ∈ l → Redis.get (url_key c) t (foldl (cleanup o) db l) = None.
Proof.
  intros H. unfold Redis.get. rewrite strings_foldl_cleanup.
  rewrite decide_True; [reflexivity|]. now apply list_elem_of_fmap_2.
Qed.

Lemma get_foldl_cleanup_notin o (l : list string) db c t :
  c ∉ l →
  Redis.get (url_key c) t (foldl (cleanup o) db l)
  = Redis.get (url_key c) t db.
Proof.
  intros H. unfold Redis.get. rewrite strings_foldl_cleanup.
  rewrite decide_False; [reflexivity|].
  intros (c' & E & Hc')%list_elem_of_fmap. apply url_key_inj in E.
  congruence.
Qed.

Lemma members_foldl_cleanup o (l : list string) :
  ∀ db c,
    c ∈ Redis.members (user_key o) (foldl (cleanup o) db l)
    ↔ c ∈ Redis.members (user_key o) db ∧ c ∉ l.
Proof.
  induction l as [|a l IH]; intros db c.
  - cbn. split; [intros H; split; [exact H|apply not_elem_of_nil]|tauto].
  - cbn [foldl]. rewrite IH. unfold cleanup at 1.
    rewrite members_srem_eq, members_del.
    rewrite elem_of_difference, elem_of_singleton, not_elem_of_cons.
    tauto.
Qed.

Lemma members_foldl_cleanup_other o o' (l : list string) :
  ∀ db,
    o ≠ o' →
    Redis.members (user_key o') (foldl (cleanup o) db l)
    = Redis.members (user_key o') db.
Proof.
  induction l as [|a l IH]; intros db Hne; [reflexivity|].
  cbn [foldl]. rewrite IH by assumption. unfold cleanup.
  rewrite members_srem_ne, members_del; [reflexivity|].
  intros E. now apply user_key_inj in E.
Qed.

(** ** The sort and the slice of [getUrls] *)

Lemma insert_newest_perm a l : insert_newest a l ≡ₚ a :: l.
Proof.
  induction l as [|b l IH]; cbn; [reflexivity|].
  destruct (createdAt a <? createdAt b); [|reflexivity].
  rewrite IH. apply Permutation_swap.
Qed.

Lemma sort_newest_first_perm l : sort_newest_first l ≡ₚ l.
Proof.
  induction l as [|a l IH]; cbn; [reflexivity|].
  fold (sort_newest_first l). now rewrite insert_newest_perm, IH.
Qed.

Lemma relative_index_nonneg len k :
  0 <= len → 0 <= k → relative_index len k = Z.min k len.
Proof.
  intros Hl Hk. unfold relative_index.
  destruct (Z.ltb_spec k 0); [lia|reflexivity].
Qed.

(** With a start that is not negative and an end not before it, [slice]
    is the segment from [start] to [end], cut at the end of the array. *)
Lemma slice_nonneg {A : Type} (l : list A) start end_ :
  0 <= start <= end_ →
  slice l start end_
  = take (Z.to_nat (end_ - start)) (drop (Z.to_nat start) l).
Proof.
  intros H. unfold slice.
  rewrite !relative_index_nonneg by lia.
  destruct (Z.le_gt_cases (Z.of_nat (length l)) start) as [Hge|Hlt].
  - rewrite Z.min_r by lia.
    rewrite !(drop_ge l) by lia. now rewrite !take_nil.
  - rewrite (Z.min_l start) by lia.
    destruct (Z.le_gt_cases end_ (Z.of_nat (length l))) as [He|He].
    + now rewrite Z.min_l by lia.
    + rewrite Z.min_r by lia.
      rewrite !take_ge; [reflexivity| |]; rewrite length_drop; lia.
Qed.

(** ** [getUrls] as a whole *)

Lemma getUrls_loop_result now o db :
  getUrls_loop now o (Redis.smembers (user_key o) db) db
  = (omap (kept now o db) (Redis.smembers (user_key o) db),
     foldl (cleanup o) db
       (List.filter (stale now o db) (Redis.smembers (user_key o) db))).
Proof.
  unfold getUrls_loop. rewrite getUrls_loop_spec; [reflexivity|].
  apply NoDup_elements.
Qed.

Lemma getUrls_runs now page pageSize o db :
  o ≠ EmptyString →
  getUrls now page pageSize o db
  = (Returns
       (mkUrlPage
          (slice (collected now o db) ((page - 1) * pageSize)
             ((page - 1) * pageSize + pageSize))
          (max_one
             (ceil_quot (Z.of_nat (length (collected now o db))) pageSize))),
     snd (getUrls_loop now o (Redis.smembers (user_key o) db) db)).
Proof.
  intros Ho. apply truthy_true in Ho. unfold getUrls, collected.
  rewrite Ho. cbn [negb].
  now destruct (getUrls_loop now o (Redis.smembers (user_key o) db) db).
Qed.

(** Every record [getUrls] hands out was fetched for a code of the index
    and passed the test of the loop. *)
Lemma elem_of_collected now o db m :
  m ∈ collected now o db
  ↔ ∃ c, indexed o c db ∧ stored now c m db
         ∧ now < expiresAt m ∧ clientId m = o.
Proof.
  unfold collected. rewrite sort_newest_first_perm, getUrls_loop_result.
  cbn [fst]. rewrite list_elem_of_omap. unfold Redis.smembers, indexed, stored.
  split.
  - intros (c & Hc & K). exists c. apply elem_of_elements in Hc.
    split; [exact Hc|]. unfold kept, live_owned in K.
    destruct (Redis.get (url_key c) now db) as [m'|]; [|discriminate].
    destruct (Z.ltb_spec now (expiresAt m')); [|discriminate].
    destruct (String.eqb_spec (clientId m') o); [|discriminate].
    cbn in K. injection K as <-. auto.
  - intros (c & Hc & S & L & O). exists c.
    split; [now apply elem_of_elements|].
    unfold kept, live_owned. rewrite S.
    destruct (Z.ltb_spec now (expiresAt m)); [|lia].
    destruct (String.eqb_spec (clientId m) o); [reflexivity|congruence].
Qed.

Lemma elem_of_slice {A : Type} (l : list A) start end_ x :
  x ∈ slice l start end_ → x ∈ l.
Proof.
  unfold slice. intros H.
  apply subseteq_take in H. now apply subseteq_drop in H.
Qed.

(** ** Claims on [getUrls] *)

(** C5 (as amended).  For a non-empty client id, [getUrls] fetches the
    record of each code in the owner's index.  A code whose record is there
    but has expired or belongs to another client is cleaned up: its record
    key is deleted and the code is removed from the owner's index.  A code
    whose record is missing is left in the index and nothing is deleted
    for it.  A code whose record is live and owned keeps its record and its
    index entry.  Every record returned is the live record, owned by the
    caller, of a code of the index, so no record of the first two kinds is
    among the results. *)
Theorem getUrls_cleans_up now page pageSize o db :
  o ≠ EmptyString →
  ∃ p db',
    getUrls now page pageSize o db = (Returns p, db')
    ∧ (∀ c, indexed o c db →
         (∀ m, stored now c m db →
               expiresAt m <= now ∨ clientId m ≠ o →
            (∀ t, Redis.get (url_key c) t db' = None)
            ∧ strings db' !! url_key c = None
            ∧ ¬ indexed o c db')
         ∧ (Redis.get (url_key c) now db = None →
              indexed o c db'
              ∧ strings db' !! url_key c = strings db !! url_key c)
         ∧ (∀ m, stored now c m db →
                 now < expiresAt m → clientId m = o →
              stored now c m db' ∧ indexed o c db'))
    ∧ (∀ m, m ∈ urls p →
         ∃ c, indexed o c db ∧ stored now c m db
              ∧ now < expiresAt m ∧ clientId m = o).
Proof.
  intros Ho. eexists _, _. split; [now apply getUrls_runs|].
  rewrite getUrls_loop_result. cbn [snd urls].
  set (codes := Redis.smembers (user_key o) db).
  assert (St : ∀ c, c ∈ List.filter (stale now o db) codes
                    ↔ indexed o c db ∧ stale now o db c = true).
  { intros c. rewrite list_elem_of_In, List.filter_In, <- list_elem_of_In.
    unfold codes, Redis.smembers, indexed. now rewrite elem_of_elements. }
  split.
  - intros c Hc. split; [|split].
    + intros m S Hbad.
      assert (Hs : c ∈ List.filter (stale now o db) codes).
      { apply St. split; [exact Hc|]. unfold stale, live_owned. rewrite S.
        destruct Hbad as [E|N].
        - destruct (Z.ltb_spec now (expiresAt m)); [lia|reflexivity].
        - destruct (String.eqb_spec (clientId m) o); [congruence|].
          now rewrite andb_false_r. }
      split; [|split].
      * intros t. now apply get_foldl_cleanup_in.
      * rewrite strings_foldl_cleanup. rewrite decide_True; [reflexivity|].
        now apply list_elem_of_fmap_2.
      * unfold indexed. rewrite members_foldl_cleanup. tauto.
    + intros N.
      assert (Hs : c ∉ List.filter (stale now o db) codes).
      { rewrite St. unfold stale. rewrite N. intros [_ ?]. discriminate. }
      split.
      * unfold indexed. rewrite members_foldl_cleanup. auto.
      * rewrite strings_foldl_cleanup. rewrite decide_False; [reflexivity|].
        intros (c' & E & Hc')%list_elem_of_fmap. apply url_key_inj in E.
        congruence.
    + intros m S L O.
      assert (Hs : c ∉ List.filter (stale now o db) codes).
      { rewrite St. unfold stale, live_owned. rewrite S.
        destruct (Z.ltb_spec now (expiresAt m)); [|lia].
        destruct (String.eqb_spec (clientId m) o); [|congruence].
        intros [_ ?]. discriminate. }
      split.
      * unfold stored. now rewrite get_foldl_cleanup_notin.
      * unfold indexed. rewrite members_foldl_cleanup. auto.
  - intros m Hm. apply elem_of_slice in Hm. now apply elem_of_collected.
Qed.

Lemma getUrls_cleans_up_witness :
  ∃ p db',
    getUrls 345600000 1 10 "owner1" Sample.db_renewed = (Returns p, db')
    ∧ Redis.get (url_key "AAAAA") 345600000 db' = None
    ∧ ¬ indexed "owner1" "AAAAA" db'.
Proof.
  assert (Ho : "owner1" ≠ EmptyString) by discriminate.
  destruct (getUrls_cleans_up 345600000 1 10 "owner1" Sample.db_renewed Ho)
    as (p & db' & E & C & _).
  exists p, db'. split; [exact E|].
  assert (I : indexed "owner1" "AAAAA" Sample.db_renewed)
    by (vm_compute; reflexivity).
  assert (S : stored 345600000 "AAAAA" Sample.record_a' Sample.db_renewed)
    by (vm_compute; reflexivity).
  destruct (C "AAAAA" I) as [C1 _].
  destruct (C1 Sample.record_a' S) as (G & _ & N).
  - left. vm_compute. discriminate.
  - split; [apply G|exact N].
Defined.

(** C5 as it was stated fails for a code whose record is missing: the
    index of "owner1" holds "AAAAA", no record is stored for it, and after
    [getUrls] the code is still in the index. *)
Lemma getUrls_keeps_orphan_code :
  indexed "owner1" "AAAAA" Sample.db_orphan
  ∧ Redis.get (url_key "AAAAA") 5 Sample.db_orphan = None
  ∧ getUrls 5 1 10 "owner1" Sample.db_orphan
    = (Returns (mkUrlPage [] (Num 1)), Sample.db_orphan)
  ∧ indexed "owner1" "AAAAA"
      (snd (getUrls 5 1 10 "owner1" Sample.db_orphan)).
Proof. repeat split; vm_compute; reflexivity. Qed.

(** C6 (as amended).  For a non-empty client id and integers [page >= 1]
    and [pageSize >= 1], [getUrls] returns a page and a number of pages.
    The number of pages is the ceiling of [count / pageSize], where [count]
    is the number of collected records, and 1 when that is smaller, so it
    is 1 for no record at all.  The page is the segment of the sorted
    records from index [(page - 1) * pageSize] up to, not including,
    index [page * pageSize], cut at the end of the list; it has at most
    [pageSize] records, and it is empty, with no error, for a page beyond
    the number of pages. *)
Theorem getUrls_pagination now page pageSize o db :
  o ≠ EmptyString → 1 <= page → 1 <= pageSize →
  let all := collected now o db in
  let count := Z.of_nat (length all) in
  let pages := ceil_div count pageSize in
  ∃ p,
    fst (getUrls now page pageSize o db) = Returns p
    ∧ totalPages p = Num (Z.max 1 pages)
    ∧ (pages - 1) * pageSize < count <= pages * pageSize
    ∧ 1 <= Z.max 1 pages
    ∧ (count = 0 → Z.max 1 pages = 1)
    ∧ urls p
      = take (Z.to_nat (page * pageSize - (page - 1) * pageSize))
          (drop (Z.to_nat ((page - 1) * pageSize)) all)
    ∧ Z.of_nat (length (urls p)) <= pageSize
    ∧ (Z.max 1 pages < page → urls p = []).
Proof.
  intros Ho Hp Hs all count pages.
  pose proof (ceil_div_bounds count pageSize ltac:(lia)) as B.
  fold pages in B.
  assert (Hslice :
    slice all ((page - 1) * pageSize) ((page - 1) * pageSize + pageSize)
    = take (Z.to_nat (page * pageSize - (page - 1) * pageSize))
        (drop (Z.to_nat ((page - 1) * pageSize)) all)).
  { rewrite slice_nonneg by nia. f_equal. f_equal. lia. }
  eexists. split; [now rewrite getUrls_runs|].
  cbn [totalPages urls]. fold all. fold count. rewrite Hslice.
  split; [|split; [|split; [|split; [|split; [|split]]]]].
  - unfold ceil_quot. destruct (Z.eqb_spec pageSize 0); [lia|reflexivity].
  - lia.
  - lia.
  - intros Hc. rewrite Hc in B. nia.
  - reflexivity.
  - rewrite length_take. lia.
  - intros Hbeyond. rewrite drop_ge; [apply take_nil|].
    fold count in B. unfold count in *. nia.
Qed.

Lemma getUrls_pagination_witness :
  ∃ p,
    fst (getUrls 5 2 1 "owner1" Sample.db_two) = Returns p
    ∧ totalPages p = Num 2
    ∧ urls p = [Sample.record_a].
Proof.
  assert (Ho : "owner1" ≠ EmptyString) by discriminate.
  destruct (getUrls_pagination 5 2 1 "owner1" Sample.db_two Ho
              ltac:(lia) ltac:(lia))
    as (p & E & T & _ & _ & _ & U & _).
  exists p. split; [exact E|]. split.
  - rewrite T. vm_compute. reflexivity.
  - rewrite U. vm_compute. reflexivity.
Defined.

(** C6 as it was stated fails for page sizes that are not positive: with a
    page size of -1 the call returns one record of two, which is more than
    the page size, because [slice(0, -1)] drops the last element only; and
    with a page size of 0 and no record the number of pages is NaN, not a
    number that is at least 1. *)
Lemma getUrls_page_size_not_positive :
  fst (getUrls 5 1 (-1) "owner1" Sample.db_two)
  = Returns (mkUrlPage [Sample.record_b] (Num 1))
  ∧ ¬ (Z.of_nat (length [Sample.record_b]) <= -1)
  ∧ fst (getUrls 5 1 0 "owner1" redis_empty)
    = Returns (mkUrlPage [] NaN).
Proof.
  split; [vm_compute; reflexivity|]. split; [cbn; lia|].
  vm_compute. reflexivity.
Qed.

(** ** Every record under the key of its own code *)

Lemma keyed_subset db db' :
  (∀ k x, strings db' !! k = Some x → strings db !! k = Some x) →
  keyed db → keyed db'.
Proof. intros Hsub K k m d H. apply (K k m d), Hsub, H. Qed.

Lemma keyed_del k db : keyed db → keyed (Redis.del k db).
Proof.
  apply keyed_subset. intros k' x H. cbn in H.
  apply lookup_delete_Some in H. tauto.
Qed.

Lemma keyed_srem k c db : keyed db → keyed (Redis.srem k c db).
Proof. apply keyed_subset. intros k' x H. exact H. Qed.

Lemma keyed_sadd k c db : keyed db → keyed (Redis.sadd k c db).
Proof. apply keyed_subset. intros k' x H. exact H. Qed.

Lemma keyed_cleanup o c db : keyed db → keyed (cleanup o db c).
Proof. intros K. now apply keyed_srem, keyed_del. Qed.

Lemma keyed_set_ex c m secs now db :
  shortUrl m = c → keyed db →
  keyed (Redis.set_ex (url_key c) m secs now db).
Proof.
  intros Hm K k m' d H. cbn in H.
  apply lookup_insert_Some in H as [[<- [= <- _]]|[_ H]].
  - now rewrite Hm.
  - now apply (K k m' d).
Qed.

Lemma stored_lookup now c m db :
  stored now c m db → ∃ d, strings db !! url_key c = Some (m, d).
Proof.
  unfold stored, Redis.get. intros H.
  destruct (strings db !! url_key c) as [[m' d]|]; [|discriminate].
  destruct (now <=? d); [|discriminate]. injection H as ->. now exists d.
Qed.

Lemma keyed_stored now c m db :
  keyed db → stored now c m db → shortUrl m = c.
Proof.
  intros K H. apply stored_lookup in H as [d H].
  apply K in H. now apply url_key_inj in H.
Qed.

Lemma keyed_shortenUrl valid_url fuel rand now u o db r db' :
  shortenUrl valid_url fuel rand now u o db = Some (r, db') →
  keyed db → keyed db'.
Proof.
  intros H K. destruct r as [c|e].
  - apply shortenUrl_returns in H as (_ & _ & _ & ->).
    unfold persist. now apply keyed_sadd, keyed_set_ex.
  - unfold shortenUrl in H.
    destruct (truthy o); cbn [negb] in H; [|now injection H as _ <-].
    destruct (valid_url u); cbn [negb] in H; [|now injection H as _ <-].
    destruct (generateShortCode rand 0) as [c0 pos].
    destruct (retry fuel rand pos now db c0); discriminate.
Qed.

Lemma keyed_lookupUrl now c cid db :
  keyed db → keyed (snd (lookupUrl now c cid db)).
Proof.
  intros K. unfold lookupUrl.
  destruct (Redis.get (url_key c) now db) as [m|]; [|exact K].
  destruct (denied cid m); [exact K|].
  destruct (expiresAt m <=? now); [|exact K]. cbn [snd].
  destruct cid as [o|]; [|now apply keyed_del].
  destruct (truthy o); [now apply keyed_srem, keyed_del|now apply keyed_del].
Qed.

Lemma keyed_extendUrl now c o db :
  keyed db → keyed (snd (extendUrl now c o db)).
Proof.
  intros K. unfold extendUrl.
  destruct (truthy o); cbn [negb]; [|exact K].
  destruct (Redis.get (url_key c) now db) as [m|] eqn:G; [|exact K].
  destruct (String.eqb (clientId m) o); cbn [negb]; [|exact K].
  destruct (expiresAt m <=? now); cbn [snd].
  - now apply keyed_srem, keyed_del.
  - apply keyed_set_ex; [|exact K]. cbn. now apply (keyed_stored now c m db).
Qed.

Lemma keyed_foldl_cleanup o (l : list string) db :
  keyed db → keyed (foldl (cleanup o) db l).
Proof.
  apply keyed_subset. intros k x H. rewrite strings_foldl_cleanup in H.
  now destruct (decide (k ∈ url_key <$> l)).
Qed.

Lemma keyed_getUrls now page pageSize o db :
  keyed db → keyed (snd (getUrls now page pageSize o db)).
Proof.
  intros K. destruct (String.eqb_spec o "") as [->|Ho]; [exact K|].
  rewrite getUrls_runs, getUrls_loop_result by assumption. cbn [snd].
  now apply keyed_foldl_cleanup.
Qed.

Lemma reachable_keyed valid_url db : reachable valid_url db → keyed db.
Proof.
  induction 1 as [|fuel rand now u o db r db' _ IH H
                  |now c cid db _ IH|now c o db _ IH
                  |now page pageSize o db _ IH].
  - intros k m d H. cbn in H. now rewrite lookup_empty in H.
  - exact (keyed_shortenUrl valid_url fuel rand now u o db r db' H IH).
  - now apply keyed_lookupUrl.
  - now apply keyed_extendUrl.
  - now apply keyed_getUrls.
Qed.

(** ** Claim on the uniqueness of short codes *)

(** C8.  In every store the four actions can produce from the empty one,
    every record Redis shows sits under the key of its own short code, so
    two shown records (live ones in particular) with the same short code
    are one and the same entry.  And [shortenUrl] writes a code only after
    the existence check has reported its key absent: the code it returns
    is the code of no record shown at that instant, the records shown
    before are all shown afterwards, and the new record is shown under the
    new code. *)
Theorem short_codes_unique valid_url db :
  reachable valid_url db →
  (∀ now c m, stored now c m db → shortUrl m = c)
  ∧ (∀ now c1 c2 m1 m2,
       stored now c1 m1 db → stored now c2 m2 db →
       shortUrl m1 = shortUrl m2 → c1 = c2 ∧ m1 = m2)
  ∧ (∀ fuel rand now u o c db',
       shortenUrl valid_url fuel rand now u o db = Some (Returns c, db') →
       Redis.exists_ (url_key c) now db = false
       ∧ (∀ c' m, stored now c' m db → c' ≠ c ∧ stored now c' m db')
       ∧ stored now c (new_mapping now u o c) db'
       ∧ reachable valid_url db').
Proof.
  intros R. pose proof (reachable_keyed valid_url db R) as K.
  split; [|split].
  - intros now c m H. now apply (keyed_stored now c m db).
  - intros now c1 c2 m1 m2 H1 H2 E.
    pose proof (keyed_stored now c1 m1 db K H1) as E1.
    pose proof (keyed_stored now c2 m2 db K H2) as E2.
    assert (c1 = c2) as <- by congruence.
    split; [reflexivity|]. unfold stored in H1, H2. congruence.
  - intros fuel rand now u o c db' H.
    pose proof (reach_shorten valid_url fuel rand now u o db _ db' R H) as R'.
    apply shortenUrl_returns in H as (_ & _ & X & ->).
    split; [exact X|]. split; [|split; [|exact R']].
    + intros c' m S.
      assert (c' ≠ c).
      { intros ->. apply exists_get in X. unfold stored in S. congruence. }
      split; [assumption|]. now apply stored_persist_other.
    + apply stored_persist. unfold lifetime. lia.
Qed.

Lemma short_codes_unique_witness :
  shortUrl Sample.record_a' = "AAAAA".
Proof.
  assert (R : reachable Sample.valid_url Sample.db_renewed).
  { destruct db_renewed_run as [C E].
    change Sample.db_renewed
      with (snd (Returns true, Sample.db_renewed)).
    rewrite <- E. apply reach_extend.
    exact (reach_shorten Sample.valid_url 0 Sample.rand_zero 0
             "https://example.com/a" "owner1" redis_empty _ _
             (reach_empty Sample.valid_url) C). }
  apply (proj1 (short_codes_unique Sample.valid_url Sample.db_renewed R)
           5 "AAAAA" Sample.record_a').
  vm_compute. reflexivity.
Defined.

(** * Further properties of the actions *)

(** ** Keys and codes *)

(** X1.  The two key templates are injective and never meet: two codes
    give the same record key only if they are the same code, two client
    ids give the same index key only if they are the same id (whatever
    characters the ids hold, colons included), and no record key is an
    index key. *)
Theorem keys_separate c1 c2 o1 o2 :
  (url_key c1 = url_key c2 ↔ c1 = c2)
  ∧ (user_key o1 = user_key o2 ↔ o1 = o2)
  ∧ url_key c1 ≠ user_key o1.
Proof.
  split; [|split].
  - split; [apply url_key_inj|now intros ->].
  - split; [apply user_key_inj|now intros ->].
  - apply url_key_user_key.
Qed.

Lemma keys_separate_witness : "a:urls" = "a:urls".
Proof.
  apply (proj1 (proj1 (proj2
    (keys_separate "AAAAA" "BBBBB" "a:urls" "a:urls")))).
  reflexivity.
Defined.

Lemma get_charAt (s : string) i a :
  String.get i s = Some a → charAt s i = String a EmptyString.
Proof. intros H. unfold charAt. now rewrite H. Qed.

(** X2.  [generateShortCode] uses five draws and returns five characters;
    the character at position [i] is the symbol of the alphabet that draw
    number [i] picked. *)
Theorem generateShortCode_shape rand pos :
  snd (generateShortCode rand pos) = (pos + 5)%nat
  ∧ String.length (fst (generateShortCode rand pos)) = 5%nat
  ∧ ∀ i, (i < 5)%nat →
      ∃ a, String.get i (fst (generateShortCode rand pos)) = Some a
           ∧ String.get (draw rand (pos + i)) chars = Some a.
Proof.
  split; [reflexivity|]. split.
  - unfold generateShortCode. cbn [fst]. now rewrite generate_loop_length.
  - assert (D : ∀ j, ∃ a, String.get (draw rand j) chars = Some a).
    { intros j. apply get_in_range. unfold draw.
      apply Nat.mod_upper_bound. discriminate. }
    destruct (D pos) as [a0 E0]. destruct (D (S pos)) as [a1 E1].
    destruct (D (S (S pos))) as [a2 E2].
    destruct (D (S (S (S pos)))) as [a3 E3].
    destruct (D (S (S (S (S pos))))) as [a4 E4].
    unfold generateShortCode. cbn [fst generate_loop].
    rewrite (get_charAt _ _ _ E0), (get_charAt _ _ _ E1),
      (get_charAt _ _ _ E2), (get_charAt _ _ _ E3), (get_charAt _ _ _ E4).
    cbv [String.append].
    intros i Hi.
    destruct i as [|[|[|[|[|i]]]]]; [| | | | |lia].
    + exists a0. now rewrite Nat.add_0_r.
    + exists a1. now replace (pos + 1)%nat with (S pos) by lia.
    + exists a2. now replace (pos + 2)%nat with (S (S pos)) by lia.
    + exists a3. now replace (pos + 3)%nat with (S (S (S pos))) by lia.
    + exists a4. now replace (pos + 4)%nat with (S (S (S (S pos)))) by lia.
Qed.

Lemma generateShortCode_shape_witness :
  ∃ a, String.get 2 (fst (generateShortCode Sample.rand_late 53))
       = Some a
       ∧ String.get (draw Sample.rand_late (53 + 2)) chars = Some a.
Proof.
  apply (proj2 (proj2 (generateShortCode_shape Sample.rand_late 53)) 2%nat).
  lia.
Defined.

(** ** [extendUrl] and [lookupUrl] side by side *)

(** X3.  For a non-empty client id [extendUrl] fails exactly when
    [lookupUrl] with the same client id fails, with the same error and the
    same effect on the store: nothing for a missing record and for a
    record of another client (expired or not), and the clean-up of record
    and index entry for an expired record of the caller.  When [lookupUrl]
    returns a record, [extendUrl] succeeds and rewrites that record.  The
    effects are there in the store: after a renewal the renewed record is
    shown for all of its new lifetime, and after "URL not found or
    expired" no record is shown for the code and the code is not in the
    caller's index unless no record was shown to begin with. *)
Theorem extendUrl_like_lookupUrl now c o db :
  o ≠ EmptyString →
  match lookupUrl now c (Some o) db with
  | (Returns m, _) =>
      extendUrl now c o db
      = (Returns true,
         Redis.set_ex (url_key c) (renewed m)
           (ceil_div (expiresAt m + lifetime - now) 1000) now db)
  | (Throws e, db') => extendUrl now c o db = (Throws e, db')
  end
  ∧ (∀ m db', lookupUrl now c (Some o) db = (Returns m, db') →
       ∀ t, t < expiresAt m + lifetime →
            stored t c (renewed m) (snd (extendUrl now c o db)))
  ∧ (fst (lookupUrl now c (Some o) db) = Throws NotFoundOrExpired →
       Redis.get (url_key c) now (snd (extendUrl now c o db)) = None
       ∧ (∀ m, stored now c m db →
            strings (snd (extendUrl now c o db))
            = delete (url_key c) (strings db)
            ∧ ¬ indexed o c (snd (extendUrl now c o db))))
  ∧ (fst (lookupUrl now c (Some o) db) = Throws UnauthorizedAccess →
       snd (extendUrl now c o db) = db).
Proof.
  intros Ho. pose proof Ho as T. apply truthy_true in T.
  unfold lookupUrl, extendUrl, denied. rewrite T. cbn [negb andb].
  destruct (Redis.get (url_key c) now db) as [m|] eqn:G.
  - destruct (String.eqb (clientId m) o); cbn [negb].
    + destruct (Z.leb_spec (expiresAt m) now).
      * split; [reflexivity|]. split; [discriminate|]. split; [|discriminate].
        intros _. cbn [snd]. split; [apply get_cleanup_eq|].
        intros m' _. split; [reflexivity|apply not_indexed_cleanup].
      * split; [reflexivity|]. split; [|split; discriminate].
        intros m' db' [= <- <-] t Ht. cbn [snd].
        now apply stored_renewed.
    + split; [reflexivity|]. split; [discriminate|].
      split; [discriminate|reflexivity].
  - split; [reflexivity|]. split; [discriminate|]. split; [|discriminate].
    intros _. cbn [snd]. split; [exact G|].
    intros m' S. unfold stored in S. congruence.
Qed.

Lemma extendUrl_like_lookupUrl_witness :
  extendUrl 345600000 "AAAAA" "owner1" Sample.db_renewed
  = (Throws NotFoundOrExpired, cleanup "owner1" Sample.db_renewed "AAAAA")
  ∧ Redis.get (url_key "AAAAA") 345600000
      (snd (extendUrl 345600000 "AAAAA" "owner1" Sample.db_renewed))
    = None
  ∧ stored 345599999 "AAAAA" Sample.record_a'
      (snd (extendUrl 1 "AAAAA" "owner1" Sample.db_created)).
Proof.
  assert (Ho : "owner1" ≠ EmptyString) by discriminate.
  destruct (extendUrl_like_lookupUrl 345600000 "AAAAA" "owner1"
              Sample.db_renewed Ho) as (H & _ & N & _).
  destruct (extendUrl_like_lookupUrl 1 "AAAAA" "owner1"
              Sample.db_created Ho) as (_ & R & _).
  assert (E : lookupUrl 345600000 "AAAAA" (Some "owner1") Sample.db_renewed
              = (Throws NotFoundOrExpired,
                 cleanup "owner1" Sample.db_renewed "AAAAA"))
    by (vm_compute; reflexivity).
  assert (E' : lookupUrl 1 "AAAAA" (Some "owner1") Sample.db_created
               = (Returns Sample.record_a, Sample.db_created))
    by (vm_compute; reflexivity).
  rewrite E in H. split; [exact H|]. split.
  - refine (proj1 (N _)). vm_compute. reflexivity.
  - apply (R Sample.record_a Sample.db_created E' 345599999).
    vm_compute. reflexivity.
Defined.

(** X4.  The failures of [extendUrl] in the order the code tests them: an
    empty client id is refused before the store is read; a missing record
    is "URL not found or expired"; a record of another client is
    "Unauthorized access to URL" even when it has expired; in all three
    cases the store is left alone.  An expired record of the caller is
    deleted with its index entry, and a renewal tried again afterwards
    finds nothing and changes nothing. *)
Theorem extendUrl_failures now c o db :
  (o = EmptyString → extendUrl now c o db = (Throws ClientIdRequired, db))
  ∧ (o ≠ EmptyString → Redis.get (url_key c) now db = None →
       extendUrl now c o db = (Throws NotFoundOrExpired, db))
  ∧ (∀ m, o ≠ EmptyString → stored now c m db → clientId m ≠ o →
       extendUrl now c o db = (Throws UnauthorizedAccess, db))
  ∧ (∀ m, o ≠ EmptyString → stored now c m db → clientId m = o →
       expiresAt m <= now →
       extendUrl now c o db = (Throws NotFoundOrExpired, cleanup o db c)
       ∧ ¬ indexed o c (cleanup o db c)
       ∧ ∀ t, extendUrl t c o (cleanup o db c)
              = (Throws NotFoundOrExpired, cleanup o db c)).
Proof.
  split; [|split; [|split]].
  - intros ->. reflexivity.
  - intros Ho N. apply truthy_true in Ho. unfold extendUrl.
    now rewrite Ho, N.
  - intros m Ho S N. apply truthy_true in Ho. unfold extendUrl.
    rewrite Ho, S. cbn [negb].
    destruct (String.eqb_spec (clientId m) o); [congruence|reflexivity].
  - intros m Ho S E L. pose proof Ho as T. apply truthy_true in T.
    split; [|split].
    + unfold extendUrl. rewrite T, S. cbn [negb].
      rewrite E, String.eqb_refl. cbn [negb].
      destruct (Z.leb_spec (expiresAt m) now); [reflexivity|lia].
    + apply not_indexed_cleanup.
    + intros t. unfold extendUrl. rewrite T. cbn [negb].
      now rewrite get_cleanup_eq.
Qed.

Lemma extendUrl_failures_witness :
  extendUrl 345600000 "AAAAA" "owner2" Sample.db_renewed
  = (Throws UnauthorizedAccess, Sample.db_renewed).
Proof.
  apply (proj1 (proj2 (proj2
    (extendUrl_failures 345600000 "AAAAA" "owner2" Sample.db_renewed)))
    Sample.record_a').
  - discriminate.
  - vm_compute. reflexivity.
  - discriminate.
Defined.

(** ** What a call leaves alone *)

Lemma lookupUrl_store_cases now c cid db :
  snd (lookupUrl now c cid db) = db
  ∨ snd (lookupUrl now c cid db) = Redis.del (url_key c) db
  ∨ ∃ o, cid = Some o ∧ snd (lookupUrl now c cid db) = cleanup o db c.
Proof.
  unfold lookupUrl.
  destruct (Redis.get (url_key c) now db) as [m|]; [|now left].
  destruct (denied cid m); [now left|].
  destruct (expiresAt m <=? now); [|now left]. cbn [snd].
  destruct cid as [o|]; [|right; now left].
  destruct (truthy o); [|right; now left].
  right. right. now exists o.
Qed.

Lemma members_cleanup_subset o o' c c' db :
  indexed o' c' (cleanup o db c) → indexed o' c' db.
Proof.
  unfold indexed, cleanup.
  destruct (decide (user_key o = user_key o')) as [E|N].
  - rewrite <- E, members_srem_eq, members_del.
    now intros [H _]%elem_of_difference.
  - now rewrite members_srem_ne, members_del.
Qed.

Lemma members_cleanup_other_code o o' c c' db :
  c' ≠ c → indexed o' c' db → indexed o' c' (cleanup o db c).
Proof.
  intros Hne. unfold indexed, cleanup.
  destruct (decide (user_key o = user_key o')) as [E|N].
  - rewrite <- E, members_srem_eq, members_del. intros H.
    apply elem_of_difference. split; [exact H|].
    intros Hs. apply elem_of_singleton in Hs. congruence.
  - now rewrite members_srem_ne, members_del.
Qed.

(** X5.  [lookupUrl] only ever takes away, and only what belongs to the
    code it was called for: the records of all other codes are shown as
    before at every instant, every index set of a client other than the
    caller is unchanged, no code enters an index set and no other code
    leaves one, and the call never makes a record appear under its own
    code either. *)
Theorem lookupUrl_frame now c cid db :
  (∀ c' t, c' ≠ c →
     Redis.get (url_key c') t (snd (lookupUrl now c cid db))
     = Redis.get (url_key c') t db)
  ∧ (∀ o', cid ≠ Some o' →
       Redis.members (user_key o') (snd (lookupUrl now c cid db))
       = Redis.members (user_key o') db)
  ∧ (∀ o' c', indexed o' c' (snd (lookupUrl now c cid db)) →
       indexed o' c' db)
  ∧ (∀ o' c', c' ≠ c → indexed o' c' db →
       indexed o' c' (snd (lookupUrl now c cid db)))
  ∧ (∀ t m,
       Redis.get (url_key c) t (snd (lookupUrl now c cid db)) = Some m →
       Redis.get (url_key c) t db = Some m).
Proof.
  destruct (lookupUrl_store_cases now c cid db) as [E|[E|(o & Ec & E)]];
    rewrite E; clear E.
  - repeat split; auto.
  - repeat split; auto.
    + intros c' t Hne. apply get_del_ne. intros K.
      apply url_key_inj in K. congruence.
    + intros t m. now rewrite get_del_eq.
  - split; [|split; [|split; [|split]]].
    + intros c' t Hne. now apply get_cleanup_ne.
    + intros o' Hne. unfold cleanup.
      rewrite members_srem_ne, members_del; [reflexivity|].
      intros K. apply user_key_inj in K. congruence.
    + intros o' c'. apply members_cleanup_subset.
    + intros o' c'. apply members_cleanup_other_code.
    + intros t m. now rewrite get_cleanup_eq.
Qed.

Lemma lookupUrl_frame_witness :
  Redis.get (url_key "BBBBB") 5
    (snd (lookupUrl 172800000 "AAAAA" (Some "owner1") Sample.db_two))
  = Redis.get (url_key "BBBBB") 5 Sample.db_two.
Proof.
  apply (proj1 (lookupUrl_frame 172800000 "AAAAA" (Some "owner1")
                  Sample.db_two)).
  discriminate.
Defined.

Lemma getUrls_store now page pageSize o db :
  o ≠ EmptyString →
  snd (getUrls now page pageSize o db)
  = foldl (cleanup o) db
      (List.filter (stale now o db) (Redis.smembers (user_key o) db)).
Proof.
  intros Ho. now rewrite getUrls_runs, getUrls_loop_result.
Qed.

Lemma elem_of_stale_codes now o db c :
  c ∈ List.filter (stale now o db) (Redis.smembers (user_key o) db)
  ↔ indexed o c db ∧ stale now o db c = true.
Proof.
  rewrite list_elem_of_In, List.filter_In, <- list_elem_of_In.
  unfold Redis.smembers, indexed. now rewrite elem_of_elements.
Qed.

(** X6.  [getUrls] touches nothing but the caller's own index set and the
    records of the codes in it: with an empty client id it changes
    nothing; otherwise the record of every code outside the caller's index
    is shown as before, every other client's index set is unchanged, and
    a code of the caller's index stays there, with its record, unless a
    record was found for it that is expired or owned by somebody else. *)
Theorem getUrls_frame now page pageSize o db :
  (o = EmptyString → snd (getUrls now page pageSize o db) = db)
  ∧ (∀ c t, ¬ indexed o c db →
       Redis.get (url_key c) t (snd (getUrls now page pageSize o db))
       = Redis.get (url_key c) t db)
  ∧ (∀ o', o' ≠ o →
       Redis.members (user_key o') (snd (getUrls now page pageSize o db))
       = Redis.members (user_key o') db)
  ∧ (∀ c, indexed o c (snd (getUrls now page pageSize o db)) →
       indexed o c db)
  ∧ (∀ c t, indexed o c db → stale now o db c = false →
       indexed o c (snd (getUrls now page pageSize o db))
       ∧ Redis.get (url_key c) t (snd (getUrls now page pageSize o db))
         = Redis.get (url_key c) t db).
Proof.
  split; [now intros ->|].
  destruct (String.eqb_spec o "") as [->|Ho].
  { cbn [getUrls truthy String.eqb negb snd]. repeat split; auto. }
  rewrite getUrls_store by assumption.
  split; [|split; [|split]].
  - intros c t Hc. apply get_foldl_cleanup_notin.
    rewrite elem_of_stale_codes. tauto.
  - intros o' Hne. now apply members_foldl_cleanup_other.
  - intros c Hc. unfold indexed in Hc.
    apply members_foldl_cleanup in Hc. tauto.
  - intros c t Hc Hs.
    assert (N : c ∉ List.filter (stale now o db)
                      (Redis.smembers (user_key o) db)).
    { rewrite elem_of_stale_codes. intros [_ K]. congruence. }
    split.
    + unfold indexed. apply members_foldl_cleanup. auto.
    + now apply get_foldl_cleanup_notin.
Qed.

Lemma getUrls_frame_witness :
  indexed "owner1" "AAAAA" (snd (getUrls 5 1 10 "owner1" Sample.db_two)).
Proof.
  apply (proj2 (proj2 (proj2 (proj2
    (getUrls_frame 5 1 10 "owner1" Sample.db_two)))) "AAAAA" 5);
    vm_compute; reflexivity.
Defined.

(** ** Order and pages of [getUrls] *)

Lemma insert_newest_sorted a l :
  newest_first l → newest_first (insert_newest a l).
Proof.
  unfold newest_first. induction l as [|b l IH]; intros S; cbn.
  - constructor; [constructor|constructor].
  - apply StronglySorted_inv in S as [S F].
    destruct (Z.ltb_spec (createdAt a) (createdAt b)).
    + constructor; [now apply IH|].
      rewrite insert_newest_perm. constructor; [lia|exact F].
    + constructor; [now constructor|].
      constructor; [lia|].
      eapply Forall_impl; [exact F|]. cbn. intros x Hx. lia.
Qed.

Lemma sort_newest_first_sorted l : newest_first (sort_newest_first l).
Proof.
  induction l as [|a l IH]; cbn; [constructor|].
  now apply insert_newest_sorted.
Qed.

Lemma newest_first_drop n l : newest_first l → newest_first (drop n l).
Proof.
  unfold newest_first. revert n. induction l as [|a l IH]; intros n S.
  - now destruct n.
  - destruct n as [|n]; [exact S|]. cbn.
    apply StronglySorted_inv in S as [S _]. now apply IH.
Qed.

Lemma newest_first_take n l : newest_first l → newest_first (take n l).
Proof.
  unfold newest_first. revert n. induction l as [|a l IH]; intros n S.
  - destruct n; constructor.
  - destruct n as [|n]; [constructor|]. cbn.
    apply StronglySorted_inv in S as [S F].
    constructor; [now apply IH|].
    apply Forall_forall. intros x Hx.
    apply (proj1 (Forall_forall _ _) F). now apply subseteq_take in Hx.
Qed.

(** X7.  Whatever integers [page] and [pageSize] are, the records
    [getUrls] returns come newest first: in the page, no record stands
    before one that was created later. *)
Theorem getUrls_newest_first now page pageSize o db :
  o ≠ EmptyString →
  ∃ p, fst (getUrls now page pageSize o db) = Returns p
       ∧ newest_first (urls p)
       ∧ ∀ i j a b, (i < j)%nat → urls p !! i = Some a →
           urls p !! j = Some b → createdAt b <= createdAt a.
Proof.
  intros Ho. eexists. split; [now rewrite getUrls_runs|]. cbn [urls].
  assert (S : newest_first
            (slice (collected now o db) ((page - 1) * pageSize)
               ((page - 1) * pageSize + pageSize))).
  { unfold slice. apply newest_first_take, newest_first_drop.
    apply sort_newest_first_sorted. }
  split; [exact S|].
  revert S. generalize (slice (collected now o db) ((page - 1) * pageSize)
                          ((page - 1) * pageSize + pageSize)).
  unfold newest_first. intros l S. induction S as [|x l S IH F].
  - intros i j a b _ H. now rewrite lookup_nil in H.
  - intros i j a b Hij Ha Hb. destruct j as [|j]; [lia|]. cbn in Hb.
    destruct i as [|i].
    + cbn in Ha. injection Ha as <-.
      apply (proj1 (Forall_forall _ _) F).
      now apply list_elem_of_lookup_2 in Hb.
    + cbn in Ha. apply (IH i j); [lia|assumption|assumption].
Qed.

Lemma getUrls_newest_first_witness :
  ∃ p, fst (getUrls 5 1 10 "owner1" Sample.db_two) = Returns p
       ∧ urls p = [Sample.record_b; Sample.record_a].
Proof.
  assert (Ho : "owner1" ≠ EmptyString) by discriminate.
  destruct (getUrls_newest_first 5 1 10 "owner1" Sample.db_two Ho)
    as (p & E & _).
  exists p. split; [exact E|].
  assert (E' : fst (getUrls 5 1 10 "owner1" Sample.db_two)
               = Returns (mkUrlPage [Sample.record_b; Sample.record_a]
                            (Num 1)))
    by (vm_compute; reflexivity).
  rewrite E' in E. now injection E as <-.
Defined.

(** X8.  For a page size of at least 1 the pages tile the list of the
    collected records: the record at index [i] of the sorted list is the
    record at index [i mod pageSize] of page [i / pageSize + 1], so every
    collected record is on exactly that page. *)
Theorem getUrls_pages_tile now pageSize o db (i : nat) m :
  o ≠ EmptyString → 1 <= pageSize →
  collected now o db !! i = Some m →
  ∃ p,
    fst (getUrls now (Z.of_nat i / pageSize + 1) pageSize o db) = Returns p
    ∧ urls p !! Z.to_nat (Z.of_nat i mod pageSize) = Some m.
Proof.
  intros Ho Hs Hi. eexists. split; [now rewrite getUrls_runs|]. cbn [urls].
  pose proof (Z.div_mod (Z.of_nat i) pageSize ltac:(lia)) as D.
  pose proof (Z.mod_pos_bound (Z.of_nat i) pageSize ltac:(lia)) as B.
  pose proof (Z.div_pos (Z.of_nat i) pageSize ltac:(lia) ltac:(lia)) as Q.
  replace (Z.of_nat i / pageSize + 1 - 1) with (Z.of_nat i / pageSize) by lia.
  rewrite slice_nonneg by nia.
  rewrite lookup_take_lt by lia. rewrite lookup_drop.
  replace (Z.to_nat (Z.of_nat i / pageSize * pageSize)
           + Z.to_nat (Z.of_nat i mod pageSize))%nat with i by nia.
  exact Hi.
Qed.

Lemma getUrls_pages_tile_witness :
  ∃ p, fst (getUrls 5 2 1 "owner1" Sample.db_two) = Returns p
       ∧ urls p !! 0%nat = Some Sample.record_a.
Proof.
  apply (getUrls_pages_tile 5 1 "owner1" Sample.db_two 1 Sample.record_a).
  - discriminate.
  - lia.
  - vm_compute. reflexivity.
Defined.

(** ** Listing twice *)

Lemma filter_all_false {A : Type} (f : A → bool) (l : list A) :
  (∀ x, x ∈ l → f x = false) → List.filter f l = [].
Proof.
  induction l as [|a l IH]; intros H; [reflexivity|]. cbn.
  rewrite (H a) by (apply elem_of_cons; now left).
  apply IH. intros x Hx. apply H. apply elem_of_cons. now right.
Qed.

(** Dropping from a duplicate-free list entries on which [f] gives nothing
    does not change what [omap f] collects, up to the order. *)
Lemma omap_sub_perm {A B : Type} `{EqDecision A} (f : A → option B)
    (l : list A) :
  ∀ l',
    NoDup l → NoDup l' →
    (∀ x, x ∈ l' → x ∈ l) →
    (∀ x, x ∈ l → x ∉ l' → f x = None) →
    omap f l' ≡ₚ omap f l.
Proof.
  induction l as [|a l IH]; intros l' Hl Hl' Hsub Hnone.
  - destruct l' as [|b l']; [reflexivity|].
    exfalso. eapply not_elem_of_nil, Hsub. apply elem_of_cons. now left.
  - apply NoDup_cons in Hl as [Ha Hl].
    destruct (decide (a ∈ l')) as [Hin|Hout].
    + apply elem_of_Permutation in Hin as [k Hk].
      rewrite Hk. cbn [omap list_omap].
      rewrite Hk in Hl'. apply NoDup_cons in Hl' as [Hak Hk'].
      assert (IHk : omap f k ≡ₚ omap f l).
      { apply IH; [assumption|assumption| |].
        - intros x Hx.
          assert (Hx' : x ∈ a :: l).
          { apply Hsub. rewrite Hk. apply elem_of_cons. now right. }
          apply elem_of_cons in Hx' as [->|Hx']; [contradiction|exact Hx'].
        - intros x Hx Hxk. apply Hnone; [apply elem_of_cons; now right|].
          rewrite Hk. intros [->|K]%elem_of_cons; contradiction. }
      destruct (f a); now rewrite IHk.
    + cbn [omap list_omap].
      rewrite (Hnone a) by (try apply elem_of_cons; auto).
      apply IH; [assumption|assumption| |].
      * intros x Hx. pose proof (Hsub x Hx) as Hx'.
        apply elem_of_cons in Hx' as [->|Hx']; [contradiction|exact Hx'].
      * intros x Hx Hxl'.
        apply Hnone; [apply elem_of_cons; now right|exact Hxl'].
Qed.

Lemma stale_not_kept now o db c :
  stale now o db c = true → kept now o db c = None.
Proof.
  unfold stale, kept. destruct (Redis.get (url_key c) now db) as [m|];
    [|discriminate].
  now destruct (live_owned now o m).
Qed.

Lemma collected_perm now o db :
  collected now o db
  ≡ₚ omap (kept now o db) (Redis.smembers (user_key o) db).
Proof.
  unfold collected. now rewrite sort_newest_first_perm, getUrls_loop_result.
Qed.

(** X9.  A second [getUrls] at the same instant finds nothing left to
    clean: it leaves the store exactly as the first call left it, whatever
    page is asked for, and it collects the same records as the first. *)
Theorem getUrls_twice now page pageSize page' pageSize' o db :
  snd (getUrls now page' pageSize' o
         (snd (getUrls now page pageSize o db)))
  = snd (getUrls now page pageSize o db)
  ∧ collected now o (snd (getUrls now page pageSize o db))
    ≡ₚ collected now o db.
Proof.
  destruct (String.eqb_spec o "") as [->|Ho]; [split; reflexivity|].
  rewrite (getUrls_store now page pageSize) by assumption.
  set (gone := List.filter (stale now o db) (Redis.smembers (user_key o) db)).
  set (db' := foldl (cleanup o) db gone).
  assert (Hmem : ∀ c, c ∈ Redis.smembers (user_key o) db'
                      ↔ indexed o c db ∧ c ∉ gone).
  { intros c. unfold Redis.smembers. rewrite elem_of_elements.
    apply members_foldl_cleanup. }
  assert (Hget : ∀ c, c ∈ Redis.smembers (user_key o) db' →
                      Redis.get (url_key c) now db'
                      = Redis.get (url_key c) now db).
  { intros c Hc. apply Hmem in Hc as [_ Hc].
    now apply get_foldl_cleanup_notin. }
  assert (Hfresh : ∀ c, c ∈ Redis.smembers (user_key o) db' →
                        stale now o db' c = false).
  { intros c Hc. unfold stale. rewrite (Hget c Hc).
    apply Hmem in Hc as [Hi Hc]. unfold gone in Hc.
    rewrite elem_of_stale_codes in Hc. unfold stale in Hc.
    destruct (Redis.get (url_key c) now db) as [m|]; [|reflexivity].
    destruct (negb (live_owned now o m)); [|reflexivity]. tauto. }
  split.
  - rewrite getUrls_store by assumption.
    now rewrite (filter_all_false _ _ Hfresh).
  - rewrite !collected_perm.
    assert (E : omap (kept now o db') (Redis.smembers (user_key o) db')
                = omap (kept now o db) (Redis.smembers (user_key o) db')).
    { apply list_omap_ext.
      apply Forall2_same_length_lookup. split; [reflexivity|].
      intros i x y Hx Hy. assert (x = y) as <- by congruence.
      unfold kept. rewrite Hget; [reflexivity|].
      now apply list_elem_of_lookup_2 in Hx. }
    rewrite E.
    { apply omap_sub_perm; try apply NoDup_elements.
      * intros c Hc. apply Hmem in Hc as [Hc _].
        unfold Redis.smembers. now apply elem_of_elements.
      * intros c Hc Hn. apply stale_not_kept.
        unfold Redis.smembers in Hc. apply elem_of_elements in Hc.
        destruct (stale now o db c) eqn:S; [reflexivity|]. exfalso.
        (* a code that is not stale stays in the index *)
        apply Hn, Hmem. split; [exact Hc|].
        unfold gone. rewrite elem_of_stale_codes. intros [_ K]. congruence. }
Qed.

(** ** What the actions keep true of every record *)

Lemma generateShortCode_length rand pos :
  String.length (fst (generateShortCode rand pos)) = 5%nat.
Proof.
  unfold generateShortCode. cbn [fst]. now rewrite generate_loop_length.
Qed.

Lemma retry_length fuel rand now db :
  ∀ pos c0 c,
    String.length c0 = 5%nat →
    retry fuel rand pos now db c0 = Some c →
    String.length c = 5%nat.
Proof.
  induction fuel as [|fuel IH]; intros pos c0 c L; cbn [retry];
    destruct (Redis.exists_ (url_key c0) now db); try discriminate.
  - now intros [= <-].
  - pose proof (generateShortCode_length rand pos) as G.
    destruct (generateShortCode rand pos) as [c1 pos1]. now apply IH.
  - now intros [= <-].
Qed.

Lemma shortenUrl_code_length valid_url fuel rand now u o db c db' :
  shortenUrl valid_url fuel rand now u o db = Some (Returns c, db') →
  String.length c = 5%nat.
Proof.
  intros H. pose proof H as H'.
  apply shortenUrl_returns in H' as (Ho & Hv & _ & _).
  rewrite shortenUrl_valid in H by assumption.
  destruct (retry fuel rand 5 now db (candidate rand 0)) as [c'|] eqn:R;
    [|discriminate].
  injection H as -> _.
  eapply retry_length; [|exact R]. apply candidate_length.
Qed.

Lemma sound_subset valid_url db db' :
  (∀ k x, strings db' !! k = Some x → strings db !! k = Some x) →
  (∀ k m d, strings db' !! k = Some (m, d) →
     indexed (clientId m) (shortUrl m) db →
     indexed (clientId m) (shortUrl m) db') →
  sound valid_url db → sound valid_url db'.
Proof.
  intros Hsub Hidx S k m d H.
  destruct (S k m d (Hsub _ _ H)) as [W I].
  split; [exact W|]. now apply (Hidx k m d).
Qed.

Lemma sound_del valid_url k db :
  sound valid_url db → sound valid_url (Redis.del k db).
Proof.
  apply sound_subset.
  - intros k' x H. cbn in H. apply lookup_delete_Some in H. tauto.
  - auto.
Qed.

Lemma sound_cleanup valid_url o c db :
  keyed db → sound valid_url db → sound valid_url (cleanup o db c).
Proof.
  intros K. apply sound_subset.
  - intros k x H. cbn in H. apply lookup_delete_Some in H. tauto.
  - intros k m d H I. cbn in H.
    apply lookup_delete_Some in H as [Hne H].
    apply members_cleanup_other_code; [|exact I].
    intros E. apply Hne. rewrite <- E. symmetry. now apply (K k m d).
Qed.

Lemma sound_foldl_cleanup valid_url o (l : list string) :
  ∀ db, keyed db → sound valid_url db →
        sound valid_url (foldl (cleanup o) db l).
Proof.
  induction l as [|c l IH]; intros db K S; [exact S|].
  cbn [foldl]. apply IH; [now apply keyed_cleanup|now apply sound_cleanup].
Qed.

Lemma indexed_sadd k c o c' db :
  indexed o c' db → indexed o c' (Redis.sadd k c db).
Proof.
  unfold indexed. destruct (decide (k = user_key o)) as [->|N].
  - rewrite members_sadd_eq. apply elem_of_union_r.
  - now rewrite members_sadd_ne.
Qed.

Lemma sound_persist valid_url now u o c db :
  o ≠ EmptyString → valid_url u = true → String.length c = 5%nat →
  sound valid_url db → sound valid_url (persist now u o c db).
Proof.
  intros Ho Hv Hc S k m d H. unfold persist in H. cbn in H.
  apply lookup_insert_Some in H as [[<- [= <- <-]]|[Hne H]].
  - split; [|apply indexed_persist].
    repeat split; try assumption.
    + exists 1. cbn. lia.
    + rewrite lifetime_seconds. cbn. lia.
    + rewrite lifetime_seconds. cbn. lia.
  - destruct (S k m d H) as [W I]. split; [exact W|].
    unfold persist. now apply indexed_sadd.
Qed.

Lemma sound_renew valid_url now c m d db :
  strings db !! url_key c = Some (m, d) → now < expiresAt m →
  sound valid_url db →
  sound valid_url
    (Redis.set_ex (url_key c) (renewed m)
       (ceil_div (expiresAt m + lifetime - now) 1000) now db).
Proof.
  intros Hm L S k m' d' H. cbn in H.
  apply lookup_insert_Some in H as [[<- [= <- <-]]|[Hne H]].
  - destruct (S _ _ _ Hm) as [(W1 & W2 & W3 & (j & Hj & W4) & W5) I].
    split; [|exact I].
    repeat split; try assumption.
    + exists (j + 1). cbn. split; [lia|]. rewrite W4. lia.
    + cbn. pose proof (ceil_div_bounds (expiresAt m + lifetime - now) 1000
                         ltac:(lia)). lia.
    + cbn. pose proof (ceil_div_bounds (expiresAt m + lifetime - now) 1000
                         ltac:(lia)). lia.
  - exact (S k m' d' H).
Qed.

Lemma reachable_sound valid_url db :
  reachable valid_url db → sound valid_url db.
Proof.
  induction 1 as [|fuel rand now u o db r db' R IH H
                  |now c cid db R IH|now c o db R IH
                  |now page pageSize o db R IH].
  - intros k m d H. cbn in H. now rewrite lookup_empty in H.
  - destruct r as [c|e].
    + pose proof (shortenUrl_code_length _ _ _ _ _ _ _ _ _ H) as Hc.
      apply shortenUrl_returns in H as (Ho & Hv & _ & ->).
      now apply sound_persist.
    + unfold shortenUrl in H.
      destruct (truthy o); cbn [negb] in H; [|now injection H as _ <-].
      destruct (valid_url u); cbn [negb] in H; [|now injection H as _ <-].
      destruct (generateShortCode rand 0) as [c0 pos].
      destruct (retry fuel rand pos now db c0); discriminate.
  - pose proof (reachable_keyed _ _ R) as K.
    destruct (lookupUrl_store_cases now c cid db) as [E|[E|(o & _ & E)]];
      rewrite E; [exact IH|now apply sound_del|now apply sound_cleanup].
  - pose proof (reachable_keyed _ _ R) as K. unfold extendUrl.
    destruct (truthy o); cbn [negb]; [|exact IH].
    destruct (Redis.get (url_key c) now db) as [m|] eqn:G; [|exact IH].
    destruct (String.eqb (clientId m) o); cbn [negb]; [|exact IH].
    destruct (Z.leb_spec (expiresAt m) now); cbn [snd].
    + now apply sound_cleanup.
    + apply stored_lookup in G as [d G]. now apply (sound_renew _ _ _ _ d).
  - pose proof (reachable_keyed _ _ R) as K.
    destruct (String.eqb_spec o "") as [->|Ho]; [exact IH|].
    rewrite getUrls_store by assumption. now apply sound_foldl_cleanup.
Qed.

Lemma collected_on_page now pageSize o db (i : nat) m :
  1 <= pageSize →
  collected now o db !! i = Some m →
  slice (collected now o db)
    ((Z.of_nat i / pageSize + 1 - 1) * pageSize)
    ((Z.of_nat i / pageSize + 1 - 1) * pageSize + pageSize)
  !! Z.to_nat (Z.of_nat i mod pageSize) = Some m.
Proof.
  intros Hs Hi.
  pose proof (Z.div_mod (Z.of_nat i) pageSize ltac:(lia)) as D.
  pose proof (Z.mod_pos_bound (Z.of_nat i) pageSize ltac:(lia)) as B.
  pose proof (Z.div_pos (Z.of_nat i) pageSize ltac:(lia) ltac:(lia)) as Q.
  replace (Z.of_nat i / pageSize + 1 - 1) with (Z.of_nat i / pageSize) by lia.
  rewrite slice_nonneg by nia.
  rewrite lookup_take_lt by lia. rewrite lookup_drop.
  replace (Z.to_nat (Z.of_nat i / pageSize * pageSize)
           + Z.to_nat (Z.of_nat i mod pageSize))%nat with i by nia.
  exact Hi.
Qed.

(** X10.  In every store the actions can produce, a record that Redis
    shows under a code has that code as its [shortUrl], a code of five
    characters, a non-empty client id, a URL that passed the validation,
    and an [expiresAt] that is a whole number of 48-hour periods, at least
    one, after its [createdAt]; and the code is in the index of the
    record's client. *)
Theorem reachable_record_shape valid_url db now c m :
  reachable valid_url db → stored now c m db →
  shortUrl m = c
  ∧ String.length c = 5%nat
  ∧ clientId m ≠ EmptyString
  ∧ valid_url (longUrl m) = true
  ∧ (∃ k, 1 <= k ∧ expiresAt m = createdAt m + k * (48 * 60 * 60 * 1000))
  ∧ createdAt m < expiresAt m
  ∧ indexed (clientId m) c db.
Proof.
  intros R S.
  pose proof (keyed_stored now c m db (reachable_keyed _ _ R) S) as E.
  destruct (stored_lookup now c m db S) as [d H].
  destruct (reachable_sound _ _ R _ _ _ H)
    as [(W1 & W2 & W3 & (k & Hk & W4) & _) I].
  subst c. repeat split; try assumption.
  - now exists k.
  - rewrite W4. unfold lifetime. nia.
Qed.

Lemma reachable_db_renewed : reachable Sample.valid_url Sample.db_renewed.
Proof.
  destruct db_renewed_run as [C E].
  change Sample.db_renewed with (snd (Returns true, Sample.db_renewed)).
  rewrite <- E. apply reach_extend.
  exact (reach_shorten Sample.valid_url 0 Sample.rand_zero 0
           "https://example.com/a" "owner1" redis_empty _ _
           (reach_empty Sample.valid_url) C).
Defined.

Lemma reachable_record_shape_witness :
  indexed (clientId Sample.record_a') "AAAAA" Sample.db_renewed.
Proof.
  apply (reachable_record_shape Sample.valid_url Sample.db_renewed 5
           "AAAAA" Sample.record_a' reachable_db_renewed).
  vm_compute. reflexivity.
Defined.

(** X11.  In every store the actions can produce, the time to live of a
    key and the [expiresAt] of its record agree to within a second: the
    key runs out no earlier than the record expires and less than 1000
    milliseconds later.  So Redis shows every record that has not expired,
    and a record that is shown has expired less than a second ago, if at
    all. *)
Theorem reachable_ttl_backstop valid_url db c m d :
  reachable valid_url db → strings db !! url_key c = Some (m, d) →
  expiresAt m <= d < expiresAt m + 1000
  ∧ (∀ now, now < expiresAt m → stored now c m db)
  ∧ (∀ now m', stored now c m' db → m' = m ∧ now < expiresAt m + 1000).
Proof.
  intros R H.
  destruct (reachable_sound _ _ R _ _ _ H) as [(_ & _ & _ & _ & W) _].
  split; [exact W|]. split.
  - intros now L. unfold stored, Redis.get. rewrite H.
    destruct (Z.leb_spec now d); [reflexivity|lia].
  - intros now m' S. unfold stored, Redis.get in S. rewrite H in S.
    destruct (Z.leb_spec now d); [|discriminate].
    injection S as <-. split; [reflexivity|lia].
Qed.

Lemma reachable_ttl_backstop_witness :
  stored 345599999 "AAAAA" Sample.record_a' Sample.db_renewed.
Proof.
  refine (proj1 (proj2 (reachable_ttl_backstop Sample.valid_url
            Sample.db_renewed "AAAAA" Sample.record_a' 345600001
            reachable_db_renewed _)) 345599999 _).
  - vm_compute. reflexivity.
  - vm_compute. reflexivity.
Defined.

(** X12.  In every store the actions can produce, [getUrls] misses no
    live mapping of the caller: a record that is shown and has not expired
    is among the records collected for its client, and for every page size
    of at least 1 it is on one of the pages. *)
Theorem getUrls_complete valid_url db now c m pageSize :
  reachable valid_url db → stored now c m db → now < expiresAt m →
  1 <= pageSize →
  m ∈ collected now (clientId m) db
  ∧ ∃ page p,
      1 <= page
      ∧ fst (getUrls now page pageSize (clientId m) db) = Returns p
      ∧ m ∈ urls p.
Proof.
  intros R S L Hs.
  pose proof (keyed_stored now c m db (reachable_keyed _ _ R) S) as E.
  destruct (stored_lookup now c m db S) as [d H].
  destruct (reachable_sound _ _ R _ _ _ H) as [(Ho & _) I].
  assert (Hm : m ∈ collected now (clientId m) db).
  { apply elem_of_collected. exists c. rewrite E in I. auto. }
  split; [exact Hm|].
  apply list_elem_of_lookup_1 in Hm as [i Hi].
  pose proof (Z.div_pos (Z.of_nat i) pageSize ltac:(lia) ltac:(lia)) as Q.
  exists (Z.of_nat i / pageSize + 1). eexists.
  split; [lia|]. split; [now rewrite getUrls_runs|]. cbn [urls].
  eapply list_elem_of_lookup_2. now apply collected_on_page.
Qed.

Lemma getUrls_complete_witness :
  Sample.record_a' ∈ collected 5 "owner1" Sample.db_renewed.
Proof.
  apply (proj1 (getUrls_complete Sample.valid_url Sample.db_renewed 5
                  "AAAAA" Sample.record_a' 10 reachable_db_renewed
                  ltac:(vm_compute; reflexivity)
                  ltac:(vm_compute; reflexivity) ltac:(lia))).
Defined.

(** X13.  A mapping shows up in its owner's list as soon as it is
    created: whenever [shortenUrl] returns a code, the new record is among
    the records [getUrls] collects for the same client id at every instant
    from the creation until the 48 hours are over. *)
Theorem create_then_list valid_url fuel rand now u o db c db' t :
  shortenUrl valid_url fuel rand now u o db = Some (Returns c, db') →
  now <= t < now + lifetime →
  new_mapping now u o c ∈ collected t o db'.
Proof.
  intros H Ht. apply shortenUrl_returns in H as (_ & _ & _ & ->).
  apply elem_of_collected. exists c.
  split; [apply indexed_persist|]. split; [apply stored_persist; lia|].
  cbn. split; [lia|reflexivity].
Qed.

Lemma create_then_list_witness :
  new_mapping 0 "https://example.com/a" "owner1" "AAAAA"
  ∈ collected 5 "owner1" Sample.db_created.
Proof.
  apply (create_then_list Sample.valid_url 0 Sample.rand_zero 0
           "https://example.com/a" "owner1" redis_empty "AAAAA"
           Sample.db_created 5).
  - vm_compute. reflexivity.
  - unfold lifetime. lia.
Defined.

(** ** Index entries without a record *)

(** X14.  No action removes an index entry whose record is gone: if
    Redis shows no record for code [c] at the instant of the call, then
    [c] stays in every index set that holds it, whichever of [lookupUrl],
    [extendUrl] and [getUrls] is called and with whatever arguments. *)
Theorem orphan_entries_stay now o c db :
  Redis.get (url_key c) now db = None → indexed o c db →
  (∀ c' cid, indexed o c (snd (lookupUrl now c' cid db)))
  ∧ (∀ c' o', indexed o c (snd (extendUrl now c' o' db)))
  ∧ (∀ page pageSize o',
       indexed o c (snd (getUrls now page pageSize o' db))).
Proof.
  intros N I. split; [|split].
  - intros c' cid. destruct (decide (c' = c)) as [->|Hne].
    + now rewrite lookupUrl_missing.
    + destruct (lookupUrl_store_cases now c' cid db)
        as [E|[E|(o' & _ & E)]]; rewrite E; try exact I.
      apply members_cleanup_other_code; [congruence|exact I].
  - intros c' o'. unfold extendUrl.
    destruct (truthy o'); cbn [negb]; [|exact I].
    destruct (Redis.get (url_key c') now db) as [m|] eqn:G; [|exact I].
    destruct (String.eqb (clientId m) o'); cbn [negb]; [|exact I].
    destruct (expiresAt m <=? now); cbn [snd]; [|exact I].
    apply members_cleanup_other_code; [|exact I].
    intros ->. congruence.
  - intros page pageSize o'.
    destruct (String.eqb_spec o' "") as [->|Ho]; [exact I|].
    rewrite getUrls_store by assumption.
    destruct (decide (o' = o)) as [->|Hne].
    + unfold indexed. apply members_foldl_cleanup. split; [exact I|].
      rewrite elem_of_stale_codes. unfold stale. rewrite N.
      intros [_ K]. discriminate.
    + unfold indexed. now rewrite members_foldl_cleanup_other.
Qed.

Lemma orphan_entries_stay_witness :
  indexed "owner1" "AAAAA"
    (snd (getUrls 5 1 10 "owner1" Sample.db_orphan)).
Proof.
  apply (proj2 (proj2 (orphan_entries_stay 5 "owner1" "AAAAA"
                         Sample.db_orphan
                         ltac:(vm_compute; reflexivity)
                         ltac:(vm_compute; reflexivity)))).
Defined.

(** X15.  A code can come back to another client with the old index entry
    still in place, and the old holder's next listing then deletes the new
    mapping.  Let [shortenUrl] return code [c] to client 1 and later
    return the same code to a different client 2, which it can do only
    when more than 48 hours have passed: the new record is live and public
    lookups return it; after one [getUrls] by client 1 the record is gone,
    and client 2 gets "URL not found or expired" for its own mapping. *)
Theorem reused_code_deleted_by_former_holder
    valid_url fuel1 rand1 fuel2 rand2 t0 t1 t2 u1 u2 o1 o2 db0 db1 db2 c
    page pageSize :
  shortenUrl valid_url fuel1 rand1 t0 u1 o1 db0 = Some (Returns c, db1) →
  shortenUrl valid_url fuel2 rand2 t1 u2 o2 db1 = Some (Returns c, db2) →
  o1 ≠ o2 → t1 <= t2 < t1 + lifetime →
  t0 + lifetime < t1
  ∧ lookupUrl t2 c None db2 = (Returns (new_mapping t1 u2 o2 c), db2)
  ∧ (∀ t, Redis.get (url_key c) t (snd (getUrls t2 page pageSize o1 db2))
          = None)
  ∧ lookupUrl t2 c (Some o2) (snd (getUrls t2 page pageSize o1 db2))
    = (Throws NotFoundOrExpired, snd (getUrls t2 page pageSize o1 db2)).
Proof.
  intros H1 H2 Hne Ht2.
  apply shortenUrl_returns in H1 as (Ho1 & _ & _ & ->).
  apply shortenUrl_returns in H2 as (Ho2 & _ & X & ->).
  assert (Ht1 : t0 + lifetime < t1).
  { apply exists_get in X. unfold persist in X.
    rewrite get_sadd, get_set_ex_eq, lifetime_seconds in X.
    destruct (Z.leb_spec t1 (t0 + lifetime)); [discriminate|lia]. }
  set (db2 := persist t1 u2 o2 c (persist t0 u1 o1 c db0)).
  assert (S : stored t2 c (new_mapping t1 u2 o2 c) db2)
    by (apply stored_persist; lia).
  assert (I : indexed o1 c db2).
  { unfold db2. unfold persist at 1. apply indexed_sadd.
    unfold indexed. rewrite members_set_ex. apply indexed_persist. }
  assert (G : ∀ t, Redis.get (url_key c) t
                     (snd (getUrls t2 page pageSize o1 db2)) = None).
  { intros t. rewrite getUrls_store by assumption.
    apply get_foldl_cleanup_in, elem_of_stale_codes.
    split; [exact I|]. unfold stale, live_owned. rewrite S. cbn.
    destruct (String.eqb_spec o2 o1); [congruence|].
    now rewrite andb_false_r. }
  split; [exact Ht1|]. split; [|split].
  - apply lookupUrl_live; [exact S|reflexivity|cbn; lia].
  - exact G.
  - apply lookupUrl_missing, G.
Qed.

Lemma db_reused_run :
  shortenUrl Sample.valid_url 0 Sample.rand_zero 172800001
    "https://example.com/b" "owner2" Sample.db_created
  = Some (Returns "AAAAA", Scenario.db_reused).
Proof. vm_compute. reflexivity. Qed.

Lemma reused_code_deleted_by_former_holder_witness :
  lookupUrl 172800005 "AAAAA" (Some "owner2")
    (snd (getUrls 172800005 1 10 "owner1" Scenario.db_reused))
  = (Throws NotFoundOrExpired,
     snd (getUrls 172800005 1 10 "owner1" Scenario.db_reused)).
Proof.
  refine (proj2 (proj2 (proj2 (reused_code_deleted_by_former_holder
    Sample.valid_url 0 Sample.rand_zero 0 Sample.rand_zero
    0 172800001 172800005 "https://example.com/a" "https://example.com/b"
    "owner1" "owner2" redis_empty Sample.db_created Scenario.db_reused
    "AAAAA" 1 10 _ db_reused_run _ _)))).
  - vm_compute. reflexivity.
  - discriminate.
  - unfold lifetime. lia.
Defined.

(** ** The redirect route *)

(** X16.  The route answers a live record with a redirect, status 302,
    whoever created the record, and leaves the store alone; the location
    is the serialized form of the record's [longUrl] as
    [Response.redirect] produces it.  In every other case it answers with
    the one 404 response: for a missing record, for a [longUrl] the
    platform cannot redirect to, and for an expired record, whose record
    key it deletes, so that no record is shown for the code afterwards.
    No request changes an index set, and no response tells a missing
    record from an expired one. *)
Theorem GET_outcomes redirect_location now c db :
  (∀ m location, stored now c m db → now < expiresAt m →
     redirect_location (longUrl m) = Some location →
     GET redirect_location now c db = (Redirect location 302, db))
  ∧ (∀ m, stored now c m db → now < expiresAt m →
       redirect_location (longUrl m) = None →
       GET redirect_location now c db
       = (Plain "URL not found or expired" 404, db))
  ∧ (Redis.get (url_key c) now db = None →
       GET redirect_location now c db
       = (Plain "URL not found or expired" 404, db))
  ∧ (∀ m, stored now c m db → expiresAt m <= now →
       fst (GET redirect_location now c db)
       = Plain "URL not found or expired" 404
       ∧ strings (snd (GET redirect_location now c db))
         = delete (url_key c) (strings db)
       ∧ ∀ t, Redis.get (url_key c) t
                (snd (GET redirect_location now c db)) = None)
  ∧ sets (snd (GET redirect_location now c db)) = sets db
  ∧ (fst (GET redirect_location now c db)
     = Plain "URL not found or expired" 404
     ∨ ∃ m location,
         stored now c m db ∧ now < expiresAt m
         ∧ redirect_location (longUrl m) = Some location
         ∧ fst (GET redirect_location now c db) = Redirect location 302).
Proof.
  unfold GET. split; [|split; [|split; [|split; [|split]]]].
  - intros m location S L Hr.
    rewrite (lookupUrl_live now c None m db S eq_refl L). now rewrite Hr.
  - intros m S L Hr.
    rewrite (lookupUrl_live now c None m db S eq_refl L). now rewrite Hr.
  - intros N. now rewrite lookupUrl_missing.
  - intros m S L.
    rewrite (lookupUrl_expired_anonymous now c None m db S
               (or_introl eq_refl) L).
    cbn [fst snd]. split; [reflexivity|]. split; [reflexivity|].
    intros t. apply get_del_eq.
  - unfold lookupUrl.
    destruct (Redis.get (url_key c) now db) as [m|]; [|reflexivity].
    cbn [denied]. destruct (expiresAt m <=? now); [reflexivity|].
    now destruct (redirect_location (longUrl m)).
  - unfold lookupUrl.
    destruct (Redis.get (url_key c) now db) as [m|] eqn:G; [|now left].
    cbn [denied]. destruct (Z.leb_spec (expiresAt m) now); [now left|].
    destruct (redirect_location (longUrl m)) as [location|] eqn:Hr;
      [|now left].
    right. exists m, location. auto.
Qed.

Lemma GET_outcomes_witness :
  GET Scenario.redirect_location 5 "CCCCC" Scenario.db_bare
  = (Redirect "https://example.com/" 302, Scenario.db_bare)
  ∧ fst (GET Scenario.redirect_location 345600000 "AAAAA"
           Sample.db_renewed)
    = Plain "URL not found or expired" 404
  ∧ Redis.get (url_key "AAAAA") 345600000
      (snd (GET Scenario.redirect_location 345600000 "AAAAA"
              Sample.db_renewed))
    = None.
Proof.
  split.
  - apply (proj1 (GET_outcomes Scenario.redirect_location 5 "CCCCC"
                    Scenario.db_bare) Scenario.record_bare);
      vm_compute; reflexivity.
  - destruct (proj1 (proj2 (proj2 (proj2
      (GET_outcomes Scenario.redirect_location 345600000 "AAAAA"
         Sample.db_renewed)))) Sample.record_a') as (E & _ & G).
    + vm_compute. reflexivity.
    + vm_compute. discriminate.
    + split; [exact E|apply G].
Defined.

(** X17.  The short link works: when the platform can redirect to every
    URL that passed the validation, then in every store the actions can
    produce the route answers every record that is shown and has not
    expired with a 302 redirect whose location is the serialized form of
    its [longUrl]; in particular, once [shortenUrl] has returned a code
    for a URL, the route redirects that code to the serialized form of
    that URL until the 48 hours are over. *)
Theorem GET_after_create valid_url redirect_location db :
  (∀ u, valid_url u = true → is_Some (redirect_location u)) →
  reachable valid_url db →
  (∀ now c m, stored now c m db → now < expiresAt m →
     ∃ location,
       redirect_location (longUrl m) = Some location
       ∧ GET redirect_location now c db = (Redirect location 302, db))
  ∧ (∀ fuel rand now u o c db' t,
       shortenUrl valid_url fuel rand now u o db = Some (Returns c, db') →
       now <= t < now + lifetime →
       ∃ location,
         redirect_location u = Some location
         ∧ GET redirect_location t c db' = (Redirect location 302, db')).
Proof.
  intros Hok R.
  assert (G : ∀ db0, reachable valid_url db0 →
              ∀ now c m, stored now c m db0 → now < expiresAt m →
              ∃ location,
                redirect_location (longUrl m) = Some location
                ∧ GET redirect_location now c db0
                  = (Redirect location 302, db0)).
  { intros db0 R0 now c m S L.
    destruct (stored_lookup now c m db0 S) as [d H].
    destruct (reachable_sound _ _ R0 _ _ _ H) as [(_ & V & _) _].
    destruct (Hok _ V) as [location Hr].
    exists location. split; [exact Hr|]. unfold GET.
    rewrite (lookupUrl_live now c None m db0 S eq_refl L).
    now rewrite Hr. }
  split; [exact (G db R)|].
  intros fuel rand now u o c db' t H Ht.
  pose proof (reach_shorten valid_url fuel rand now u o db _ db' R H) as R'.
  apply shortenUrl_returns in H as (_ & _ & _ & ->).
  apply (G _ R' t c (new_mapping now u o c)).
  - apply stored_persist. lia.
  - cbn. lia.
Qed.

Lemma db_bare_run :
  shortenUrl Sample.valid_url 0 Scenario.rand_two 0
    "https://example.com" "owner1" redis_empty
  = Some (Returns "CCCCC", Scenario.db_bare).
Proof. vm_compute. reflexivity. Qed.

Lemma redirect_location_total u :
  Sample.valid_url u = true → is_Some (Scenario.redirect_location u).
Proof.
  intros H. unfold Scenario.redirect_location. rewrite H. eexists.
  reflexivity.
Defined.

Lemma GET_after_create_witness :
  ∃ location,
    Scenario.redirect_location "https://example.com" = Some location
    ∧ GET Scenario.redirect_location 5 "CCCCC" Scenario.db_bare
      = (Redirect location 302, Scenario.db_bare).
Proof.
  refine (proj2 (GET_after_create Sample.valid_url
            Scenario.redirect_location redis_empty
            redirect_location_total (reach_empty Sample.valid_url))
          0%nat Scenario.rand_two 0 "https://example.com" "owner1"
          "CCCCC" Scenario.db_bare 5 db_bare_run _).
  unfold lifetime. lia.
Defined.

(** ** What [shortenUrl] and [extendUrl] change *)

(** X18.  A successful [shortenUrl] changes one record key and one index
    set and nothing else: the record of every other code is shown as
    before at every instant, the caller's index set gains the new code and
    loses none, every other client's index set is unchanged, and the new
    record carries the creation instant, an [expiresAt] 48 hours later and
    a key that runs out at that same instant. *)
Theorem shortenUrl_effect valid_url fuel rand now u o db c db' :
  shortenUrl valid_url fuel rand now u o db = Some (Returns c, db') →
  strings db' !! url_key c
  = Some (mkUrlMapping c u now (now + 48 * 60 * 60 * 1000) o,
          now + 48 * 60 * 60 * 1000)
  ∧ (∀ c' t, c' ≠ c →
       Redis.get (url_key c') t db' = Redis.get (url_key c') t db)
  ∧ Redis.members (user_key o) db' = {[c]} ∪ Redis.members (user_key o) db
  ∧ (∀ o', o' ≠ o →
       Redis.members (user_key o') db' = Redis.members (user_key o') db).
Proof.
  intros H. apply shortenUrl_returns in H as (_ & _ & _ & ->).
  unfold persist. split; [|split; [|split]].
  - cbn [Redis.sadd Redis.set_ex strings]. rewrite lookup_insert_eq.
    now rewrite lifetime_seconds.
  - intros c' t Hne. rewrite get_sadd, get_set_ex_ne; [reflexivity|].
    intros E. apply url_key_inj in E. congruence.
  - now rewrite members_sadd_eq, members_set_ex.
  - intros o' Hne. rewrite members_sadd_ne, members_set_ex; [reflexivity|].
    intros E. apply user_key_inj in E. congruence.
Qed.

Lemma shortenUrl_effect_witness :
  Redis.members (user_key "owner2") Scenario.db_reused
  = {[ "AAAAA" ]} ∪ Redis.members (user_key "owner2") Sample.db_created.
Proof.
  exact (proj1 (proj2 (proj2 (shortenUrl_effect Sample.valid_url 0
           Sample.rand_zero 172800001 "https://example.com/b" "owner2"
           Sample.db_created "AAAAA" Scenario.db_reused db_reused_run)))).
Defined.

Lemma extendUrl_store_cases now c o db :
  snd (extendUrl now c o db) = db
  ∨ snd (extendUrl now c o db) = cleanup o db c
  ∨ ∃ m, stored now c m db ∧ now < expiresAt m
         ∧ snd (extendUrl now c o db)
           = Redis.set_ex (url_key c) (renewed m)
               (ceil_div (expiresAt m + lifetime - now) 1000) now db.
Proof.
  unfold extendUrl.
  destruct (truthy o); cbn [negb]; [|now left].
  destruct (Redis.get (url_key c) now db) as [m|] eqn:G; [|now left].
  destruct (String.eqb (clientId m) o); cbn [negb]; [|now left].
  destruct (Z.leb_spec (expiresAt m) now); cbn [snd].
  - right. now left.
  - right. right. exists m. auto.
Qed.

(** X19.  [extendUrl] touches the one record it is called for and at most
    the caller's index entry for it: the record of every other code is
    shown as before at every instant, no code enters an index set, no
    other code leaves one, every other client's index set is unchanged,
    and a call that succeeds changes no index set at all. *)
Theorem extendUrl_frame now c o db :
  (∀ c' t, c' ≠ c →
     Redis.get (url_key c') t (snd (extendUrl now c o db))
     = Redis.get (url_key c') t db)
  ∧ (∀ o' c', indexed o' c' (snd (extendUrl now c o db)) →
       indexed o' c' db)
  ∧ (∀ o' c', c' ≠ c → indexed o' c' db →
       indexed o' c' (snd (extendUrl now c o db)))
  ∧ (∀ o', o' ≠ o →
       Redis.members (user_key o') (snd (extendUrl now c o db))
       = Redis.members (user_key o') db)
  ∧ (fst (extendUrl now c o db) = Returns true →
       sets (snd (extendUrl now c o db)) = sets db).
Proof.
  assert (Hok : fst (extendUrl now c o db) = Returns true →
                sets (snd (extendUrl now c o db)) = sets db).
  { unfold extendUrl.
    destruct (truthy o); cbn [negb]; [|discriminate].
    destruct (Redis.get (url_key c) now db) as [m|]; [|discriminate].
    destruct (String.eqb (clientId m) o); cbn [negb]; [|discriminate].
    destruct (expiresAt m <=? now); [discriminate|reflexivity]. }
  destruct (extendUrl_store_cases now c o db) as [E|[E|(m & _ & _ & E)]];
    rewrite E in *; clear E.
  - repeat split; auto.
  - split; [|split; [|split; [|split]]]; [| | | |exact Hok].
    + intros c' t Hne. now apply get_cleanup_ne.
    + intros o' c'. apply members_cleanup_subset.
    + intros o' c'. apply members_cleanup_other_code.
    + intros o' Hne. unfold cleanup.
      rewrite members_srem_ne, members_del; [reflexivity|].
      intros K. apply user_key_inj in K. congruence.
  - split; [|split; [|split; [|split]]]; auto.
    intros c' t Hne. apply get_set_ex_ne.
    intros K. apply url_key_inj in K. congruence.
Qed.

Lemma extendUrl_frame_witness :
  sets (snd (extendUrl 1 "AAAAA" "owner1" Sample.db_created))
  = sets Sample.db_created.
Proof.
  apply (proj2 (proj2 (proj2 (proj2
    (extendUrl_frame 1 "AAAAA" "owner1" Sample.db_created))))).
  vm_compute. reflexivity.
Defined.
